(** * The Milky Way potential fit of [docs/potential/define-milky-way-model.ipynb]

    A shallow embedding of the notebook's three pieces of code: the potential
    model builder [get_potential], the residual function [err_func] and the
    cell that drives [scipy.optimize.leastsq].

    Numbers.  The notebook computes with NumPy [float64] values.  They are
    idealised here as real numbers ([R]): rounding, overflow to [inf],
    underflow to [0.0] and [nan] are not part of the model, and a division
    by zero (which NumPy answers with [inf] or [nan] and a warning) has no
    meaningful value.  Everything that is structural (which array is built,
    which element is combined with which, what is raised and when) is
    modelled as the code has it.  Where a property turns on the rounding of
    [np.exp] itself, the float64 that the code holds for an exact
    exponential of the model is given by [np_exp] and [stored_float64].

    Objects.  NumPy arrays are mutable objects that the code passes around by
    reference, so they live in a heap ([gmap loc ndarray]); the names bound by
    the top-level cell live in the notebook's global namespace
    ([gmap string value]); an exception stops a cell and leaves the heap and
    the namespace as they are at that point. *)

From Stdlib Require Import Reals Lra ZArith.
From stdpp Require Import base option list strings gmap.

Open Scope R_scope.

(** ** Units ([astropy.units], [gala.units]) *)

Inductive unit := Msun | kpc | pc.

(** [gala.units.galactic]: lengths in kpc, masses in Msun. *)
Inductive unit_system := galactic.

Definition mass_unit (us : unit_system) : unit :=
  match us with galactic => Msun end.

(** An argument of a potential class: a bare Python float (read in the unit
    system of the potential) or an astropy quantity [v * u]. *)
Inductive param :=
| Bare (v : R)
| Qty (v : R) (u : unit).

(** Scale factor of [Quantity.to]: [None] when the units do not convert. *)
Definition unit_scale (from to : unit) : option R :=
  match from, to with
  | Msun, Msun => Some 1
  | kpc, kpc => Some 1
  | pc, pc => Some 1
  | kpc, pc => Some 1000
  | pc, kpc => Some (/ 1000)
  | _, _ => None
  end.

(** ** Potentials ([gala.potential]) *)

(** Modelled from the spec: the component classes of [gala.potential] are not
    in the source tree; a component is the record of its constructor call,
    with the keyword arguments the notebook passes. *)
Inductive potential :=
| HernquistPotential (m c : param) (units : unit_system)
| MiyamotoNagaiPotential (m a b : param) (units : unit_system)
| NFWPotential (m r_s : param) (units : unit_system).

(** Modelled from the spec: [gp.CCompositePotential] is not in the source
    tree; the spec calls it an ordered set of named components that the
    source assembles by assigning sub-potentials by string key.  It is an
    association list in insertion order; assigning to a key that is present
    replaces its component in place, assigning to a new key appends. *)
Definition CCompositePotential := list (string * potential).

Definition CCompositePotential_new : CCompositePotential := [].

Fixpoint setitem (k : string) (v : potential) (d : CCompositePotential)
  : CCompositePotential :=
  match d with
  | [] => [(k, v)]
  | (k', v') :: d' =>
      if decide (k = k') then (k, v) :: d' else (k', v') :: setitem k v d'
  end.

Fixpoint getitem (k : string) (d : CCompositePotential) : option potential :=
  match d with
  | [] => None
  | (k', v') :: d' => if decide (k = k') then Some v' else getitem k d'
  end.

Definition keys (d : CCompositePotential) : list string := d.*1.

(** [def get_potential(log_M_h, log_r_s, log_M_n, log_a)] *)
Definition get_potential (log_M_h log_r_s log_M_n log_a : R)
  : CCompositePotential :=
  let mw_potential := CCompositePotential_new in
  let mw_potential :=
    setitem "bulge" (HernquistPotential (Bare 5e9) (Bare 1) galactic)
      mw_potential in
  let mw_potential :=
    setitem "disk"
      (MiyamotoNagaiPotential (Qty 6.8e10 Msun) (Qty 3 kpc) (Qty 280 pc)
         galactic)
      mw_potential in
  let mw_potential :=
    setitem "nucl"
      (HernquistPotential (Bare (exp log_M_n)) (Qty (exp log_a) pc) galactic)
      mw_potential in
  let mw_potential :=
    setitem "halo"
      (NFWPotential (Bare (exp log_M_h)) (Bare (exp log_r_s)) galactic)
      mw_potential in
  mw_potential.

(** ** Exceptions and results *)

Inductive exn :=
| TypeError
| ValueError
| IndexError
| KeyError (k : string)
| NameError (x : string)
| UnitConversionError
| AssertionError (msg : string)
| Unmodelled.

Inductive result (A : Type) :=
| Ok (a : A)
| Raise (e : exn).
Arguments Ok {A} a.
Arguments Raise {A} e.

(** The starred call of [get_potential] on a sequence [p] unpacks [p] into
    the four positional arguments; any number of entries other than four is
    a [TypeError]. *)
Definition get_potential_star (p : list R) : result CCompositePotential :=
  match p with
  | [log_M_h; log_r_s; log_M_n; log_a] =>
      Ok (get_potential log_M_h log_r_s log_M_n log_a)
  | _ => Raise TypeError
  end.

(** ** float64 and [np.exp]

    A float64 that is not negative: a real of the binary64 grid, or
    infinity. *)
Inductive float64 :=
| F64_finite (r : R)
| F64_inf.

Definition float64_nonneg (v : float64) : Prop :=
  match v with F64_finite r => 0 <= r | F64_inf => True end.

Definition float64_pos (v : float64) : Prop :=
  match v with F64_finite r => 0 < r | F64_inf => True end.

(** The nearest integer, a tie going to the even one. *)
Definition round_half_even (x : R) : Z :=
  let f := Zfloor x in
  if Rlt_dec (x - IZR f) (/ 2) then f
  else if Rlt_dec (/ 2) (x - IZR f) then (f + 1)%Z
  else if Z.even f then f else (f + 1)%Z.

(** The exponent of the last binary place of float64 at a positive real:
    53 bits of precision, and no place below [2 ^ -1074]. *)
Definition ulp_exponent (x : R) : Z :=
  Z.max (Zfloor (ln x / ln 2) - 52) (-1074).

(** IEEE 754 rounding to nearest, ties to even, of a positive real to
    float64; a result of [2 ^ 1024] or more is infinity. *)
Definition round_float64 (x : R) : float64 :=
  let e := ulp_exponent x in
  let r := IZR (round_half_even (x / powerRZ 2 e)) * powerRZ 2 e in
  if Rle_dec (powerRZ 2 1024) r then F64_inf else F64_finite r.

(** [np.exp] of NumPy, an external routine, on a float64: the float64
    nearest to the exponential.  (The routine of a platform may differ from
    it in the last place of an ordinary result.) *)
Definition np_exp (x : R) : float64 := round_float64 (exp x).

Definition param_value (p : param) : R :=
  match p with
  | Bare v => v
  | Qty v _ => v
  end.

(** The float64 that the code holds for a parameter that the model holds as
    an exact exponential [exp x]: what [np.exp] returned. *)
Definition stored_float64 (p : param) : float64 :=
  round_float64 (param_value p).

(** ** The heap of arrays and the notebook's namespace *)

Abbreviation loc := positive.

(** The arrays the notebook builds: one-dimensional ones (table columns,
    the parameter vector, residuals) and two-dimensional ones, stored as the
    list of their rows (the [3 x N] position array). *)
Inductive ndarray :=
| Array1 (xs : list R)
| Array2 (rows : list (list R)).

(** An astropy [Quantity] over an array: a reference to its values and its
    unit. *)
Record Quantity := mkQuantity { q_value : loc; q_unit : unit }.

(** What a global name of the notebook can be bound to.  An astropy [Table]
    is the map from its column names to its column arrays. *)
Inductive value :=
| VList (xs : list R)
| VArray (l : loc)
| VInt (n : Z)
| VTable (cols : gmap string loc)
| VPotential (pot : CCompositePotential).

(** One invocation of [leastsq]: the residual function it is given (what the
    function returns on a parameter vector), the initial guess and the
    [args] tuple. *)
Record solver_call := mkCall {
  call_func : list R → result (list R);
  call_x0 : list R;
  call_args : list loc
}.

Record state := mkState {
  heap : gmap loc ndarray;
  globals : gmap string value;
  solver_calls : list solver_call
}.

Definition set_heap (f : gmap loc ndarray → gmap loc ndarray) (s : state)
  : state :=
  mkState (f (heap s)) (globals s) (solver_calls s).

Definition set_globals (f : gmap string value → gmap string value)
  (s : state) : state :=
  mkState (heap s) (f (globals s)) (solver_calls s).

Definition log_call (c : solver_call) (s : state) : state :=
  mkState (heap s) (globals s) (solver_calls s ++ [c]).

(** ** Computations: state passing with exceptions

    A computation returns a value or raises, and in both cases hands back the
    state it reached. *)
Definition M (A : Type) : Type := state → result A * state.

#[export] Instance M_ret : MRet M := λ A (a : A) (s : state), (Ok a, s).

#[export] Instance M_bind : MBind M :=
  λ A B (k : A → M B) (c : M A) (s : state),
    match c s with
    | (Ok a, s') => k a s'
    | (Raise e, s') => (Raise e, s')
    end.

Definition raise {A} (e : exn) : M A := λ s, (Raise e, s).

Definition lift {A} (r : result A) : M A := λ s, (r, s).

(** A new array object. *)
Definition alloc (a : ndarray) : M loc :=
  λ s, let l := fresh (dom (heap s)) in (Ok l, set_heap <[l:=a]> s).

Definition load (l : loc) : M ndarray :=
  λ s, match heap s !! l with
       | Some a => (Ok a, s)
       | None => (Raise Unmodelled, s)
       end.

Definition store (l : loc) (a : ndarray) : M () :=
  λ s, (Ok (), set_heap <[l:=a]> s).

Definition load1 (l : loc) : M (list R) :=
  a ← load l;
  match a with
  | Array1 xs => mret xs
  | Array2 _ => raise Unmodelled
  end.

(** ** NumPy operations *)

(** [len(a)]: the size of the first axis. *)
Definition len (l : loc) : M nat :=
  a ← load l;
  match a with
  | Array1 xs => mret (length xs)
  | Array2 rows => mret (length rows)
  end.

(** [np.zeros((m, n))] *)
Definition np_zeros2 (m n : nat) : M loc :=
  alloc (Array2 (replicate m (replicate n 0))).

(** Broadcasting a one-dimensional array to a length: its own length, or a
    single element repeated; anything else is a [ValueError]. *)
Definition broadcast_to (n : nat) (xs : list R) : result (list R) :=
  if decide (length xs = n) then Ok xs
  else match xs with
       | [x] => Ok (replicate n x)
       | _ => Raise ValueError
       end.

(** [a[i] = v] for a two-dimensional [a] and a one-dimensional [v]: the row
    [i] of the array object [a] is overwritten in place. *)
Definition setitem_row (a : loc) (i : nat) (v : loc) : M () :=
  arr ← load a;
  xs ← load1 v;
  match arr with
  | Array2 rows =>
      match rows !! i with
      | Some row =>
          xs' ← lift (broadcast_to (length row) xs);
          store a (Array2 (<[i:=xs']> rows))
      | None => raise IndexError
      end
  | Array1 _ => raise Unmodelled
  end.

(** An elementwise binary operation on one-dimensional arrays, with NumPy's
    broadcasting; the result is a new array. *)
Definition broadcast2 (f : R → R → R) (xs ys : list R) : result (list R) :=
  if decide (length xs = length ys) then Ok (zip_with f xs ys)
  else match xs, ys with
       | [x], _ => Ok (map (f x) ys)
       | _, [y] => Ok (map (λ x, f x y) xs)
       | _, _ => Raise ValueError
       end.

Definition np_binary (f : R → R → R) (a b : loc) : M loc :=
  xs ← load1 a;
  ys ← load1 b;
  zs ← lift (broadcast2 f xs ys);
  alloc (Array1 zs).

Definition np_subtract : loc → loc → M loc := np_binary Rminus.
Definition np_divide : loc → loc → M loc := np_binary Rdiv.

(** [np.array([c0, c1, ...])] then the maximum along axis 0: the rows must
    have one length, and there must be a row. *)
Definition column_max (rows : list (list R)) : result (list R) :=
  match rows with
  | [] => Raise ValueError
  | r0 :: rest =>
      if forallb (λ r, Nat.eqb (length r) (length r0)) rest
      then Ok (fold_left (zip_with Rmax) rest r0)
      else Raise ValueError
  end.

Fixpoint load_all (ls : list loc) : M (list (list R)) :=
  match ls with
  | [] => mret []
  | l :: ls' => xs ← load1 l; rest ← load_all ls'; mret (xs :: rest)
  end.

(** [np.max([c0, c1, ...], axis=0)] *)
Definition np_max_axis0 (ls : list loc) : M loc :=
  rows ← load_all ls;
  zs ← lift (column_max rows);
  alloc (Array1 zs).

(** ** Quantities *)

(** [q.to(u)]: a new quantity, every value scaled to the unit [u]. *)
Definition quantity_to (q : Quantity) (u : unit) : M Quantity :=
  match unit_scale (q_unit q) u with
  | Some k =>
      xs ← load1 (q_value q);
      l ← alloc (Array1 (map (Rmult k) xs));
      mret (mkQuantity l u)
  | None => raise UnitConversionError
  end.

(** ** Enclosed mass *)

(** The columns of a [3 x N] array, as positions [(x, y, z)]. *)
Definition positions (rows : list (list R)) : result (list (R * R * R)) :=
  match rows with
  | [xs; ys; zs] =>
      if decide (length xs = length ys ∧ length ys = length zs)
      then Ok (zip (zip xs ys) zs)
      else Raise ValueError
  | _ => Raise ValueError
  end.

Definition sum_R (l : list R) : R := fold_left Rplus l 0.

(** The enclosed mass, in solar masses, of one component at one position:
    the analytic profiles of [gala.potential] (Hernquist, Miyamoto-Nagai,
    NFW) are not in the source tree, and the development is parametric in
    them. *)
Class MassProfiles :=
  component_mass_enclosed : potential → R * R * R → R.

(** [scipy.optimize.leastsq], an external routine, is a parameter as well:
    from the residual function (of the parameter vector alone) and the
    initial guess it returns the solution and the integer status flag, or
    raises. *)
Class LeastSquares :=
  leastsq : (list R → result (list R)) → list R → result (list R * Z).

Section Model.

Context {profiles : MassProfiles} {solver : LeastSquares}.

(** Modelled from the spec: [CCompositePotential.mass_enclosed] is not in the
    source tree; by the spec the composite's enclosed mass at a position is
    the sum of its components' enclosed masses there. *)
Definition composite_mass_enclosed (pot : CCompositePotential)
  (q : R * R * R) : R :=
  sum_R (map (λ kv, component_mass_enclosed kv.2 q) pot).

(** [pot.mass_enclosed(xyz)]: one mass per column of the position array, as a
    quantity in the mass unit of the unit system. *)
Definition mass_enclosed (pot : CCompositePotential) (xyz : loc)
  : M Quantity :=
  arr ← load xyz;
  match arr with
  | Array2 rows =>
      qs ← lift (positions rows);
      l ← alloc (Array1 (map (composite_mass_enclosed pot) qs));
      mret (mkQuantity l (mass_unit galactic))
  | Array1 _ => raise ValueError
  end.

(** ** The residual function

    [def err_func(p, r, Menc, Menc_err)] *)
Definition err_func (p r Menc Menc_err : loc) : M loc :=
  pv ← load1 p;
  pot ← lift (get_potential_star pv);
  n ← len r;
  xyz ← np_zeros2 3 n;
  setitem_row xyz 0 r;;
  q ← mass_enclosed pot xyz;
  q ← quantity_to q Msun;
  let model_menc := q_value q in
  d ← np_subtract model_menc Menc;
  np_divide d Menc_err.

(** The contract of the residual function in the spec's words: the model
    masses at the radii, and the residuals normalised by the uncertainty. *)
Definition model_masses (pot : CCompositePotential) (rs : list R) : list R :=
  map (λ r, composite_mass_enclosed pot (r, 0, 0)) rs.

Definition normalized_residuals (model observed uncertainty : list R)
  : list R :=
  zip_with Rdiv (zip_with Rminus model observed) uncertainty.

(** ** The frame of a computation *)

(** [extends s s']: every array object of [s] is in [s'] with the contents it
    had, and the namespace and the solver log are the same. *)
Definition extends (s s' : state) : Prop :=
  heap s ⊆ heap s' ∧ globals s' = globals s
  ∧ solver_calls s' = solver_calls s.

(** A computation that only adds array objects. *)
Definition grows {A} (c : M A) : Prop := ∀ s, extends s (c s).2.

(** ** The namespace of the notebook *)

Definition name (x : string) : M value :=
  λ s, match globals s !! x with
       | Some v => (Ok v, s)
       | None => (Raise (NameError x), s)
       end.

Definition assign (x : string) (v : value) : M () :=
  λ s, (Ok (), set_globals <[x:=v]> s).

(** [tbl[k]] for a string [k]: of a table, the column array itself, not a
    copy, or a [KeyError]; an array has no string index ([IndexError]), a
    composite answers with a component, which is no array, or a [KeyError],
    and a list or an integer is a [TypeError]. *)
Definition table_getitem (tbl : value) (k : string) : M loc :=
  match tbl with
  | VTable cols =>
      match cols !! k with
      | Some l => mret l
      | None => raise (KeyError k)
      end
  | VArray _ => raise IndexError
  | VPotential pot =>
      match getitem k pot with
      | Some _ => raise Unmodelled
      | None => raise (KeyError k)
      end
  | VList _ | VInt _ => raise TypeError
  end.

Definition as_array (v : value) : M loc :=
  match v with
  | VArray l => mret l
  | _ => raise TypeError
  end.

Definition as_int (v : value) : M Z :=
  match v with
  | VInt n => mret n
  | _ => raise TypeError
  end.

(** The floats of a sequence, as [np.asarray] reads a list or an array. *)
Definition as_floats (v : value) : M (list R) :=
  match v with
  | VList xs => mret xs
  | VArray l => load1 l
  | _ => raise TypeError
  end.

(** [x in range(start, stop)] for an integer [x]. *)
Definition in_range (x start stop : Z) : bool :=
  ((start <=? x) && (x <? stop))%Z.

(** [assert cond, msg] *)
Definition assert_ (cond : bool) (msg : string) : M () :=
  if cond then mret () else raise (AssertionError msg).

(** ** The optimizer driver *)

(** What [func(p, *args)] returns when the solver calls it in the state [s]
    with the parameter values [pv]: the values of the returned array. *)
Definition residual_at (func : loc → loc → loc → loc → M loc)
  (args : loc * loc * loc) (s : state) (pv : list R) : result (list R) :=
  let '(a1, a2, a3) := args in
  ((p ← alloc (Array1 pv); out ← func p a1 a2 a3; load1 out) s).1.

(** [leastsq(func, x0=x0, args=args)]: the call is logged, the solver runs,
    and its solution becomes a new array. *)
Definition call_leastsq (func : loc → loc → loc → loc → M loc)
  (x0 : list R) (args : loc * loc * loc) : M (loc * Z) :=
  λ s,
    let '(a1, a2, a3) := args in
    let f := residual_at func args s in
    let s := log_call (mkCall f x0 [a1; a2; a3]) s in
    match leastsq f x0 with
    | Ok (p_opt, ier) => (l ← alloc (Array1 p_opt); mret (l, ier)) s
    | Raise e => (Raise e, s)
    end.

(** The initial guess of the notebook. *)
Definition x0 : list R := [ln 6e11; ln 20; ln 2e9; ln 100].

(** The cell that fits the model:
[[
err = np.max([tbl['Menc_err_pos'], tbl['Menc_err_neg']], axis=0)
p_opt, ier = leastsq(err_func, x0=x0, args=(tbl['r'], tbl['Menc'], err))
assert ier in range(1,4+1), "least-squares fit failed!"
fit_potential = get_potential( *p_opt)
]] *)
Definition fit_cell : M () :=
  tbl ← name "tbl";
  c_pos ← table_getitem tbl "Menc_err_pos";
  tbl ← name "tbl";
  c_neg ← table_getitem tbl "Menc_err_neg";
  err ← np_max_axis0 [c_pos; c_neg];
  assign "err" (VArray err);;
  x0 ← name "x0";
  tbl ← name "tbl";
  c_r ← table_getitem tbl "r";
  tbl ← name "tbl";
  c_Menc ← table_getitem tbl "Menc";
  err ← name "err";
  err ← as_array err;
  x0 ← as_floats x0;
  '(p_opt, ier) ← call_leastsq err_func x0 (c_r, c_Menc, err);
  assign "p_opt" (VArray p_opt);;
  assign "ier" (VInt ier);;
  ier ← name "ier";
  ier ← as_int ier;
  assert_ (in_range ier 1 (4 + 1)) "least-squares fit failed!";;
  p_opt ← name "p_opt";
  pv ← as_floats p_opt;
  pot ← lift (get_potential_star pv);
  assign "fit_potential" (VPotential pot).

(** ** The outcome of the residual function, by values

    What [err_func] answers on a parameter vector and three one-dimensional
    arrays, read off its body: the exception of the starred call, of the
    subtraction or of the division, or the residuals. *)
Definition err_func_value (pv rs ms es : list R) : result (list R) :=
  match get_potential_star pv with
  | Ok pot =>
      match broadcast2 Rminus (model_masses pot rs) ms with
      | Ok d => broadcast2 Rdiv d es
      | Raise e => Raise e
      end
  | Raise e => Raise e
  end.

(** ** The cell of the initial guess
[[
x0 = [np.log(6E11), np.log(20.), np.log(2E9), np.log(100.)]
init_potential = get_potential( *x0)
]] *)
Definition init_cell : M () :=
  assign "x0" (VList x0);;
  v ← name "x0";
  pv ← as_floats v;
  pot ← lift (get_potential_star pv);
  assign "init_potential" (VPotential pot).

(** ** The frame of the fitting cell *)

(** The names the fitting cell assigns. *)
Definition fit_cell_names : list string :=
  ["err"; "p_opt"; "ier"; "fit_potential"].

(** [cell_frame n s s']: from [s] to [s'] no array object has changed, no
    name other than those of [fit_cell_names] has been bound or rebound, and
    the solver has been called [n] times. *)
Definition cell_frame (n : nat) (s s' : state) : Prop :=
  heap s ⊆ heap s' ∧
  (∀ x, x ∉ fit_cell_names → globals s' !! x = globals s !! x) ∧
  ∃ calls, solver_calls s' = solver_calls s ++ calls ∧ length calls = n.

End Model.

(** ** Sample data

    A table of two observations, the initial guess of the notebook, a mass
    profile that grows with [x], and a solver that returns its initial guess
    with the status 1. *)

Definition sample_mass_profiles : MassProfiles := λ _ q, q.1.1.

Definition sample_leastsq : LeastSquares := λ _ x0, Ok (x0, 1%Z).

(** A solver that gives up: status 5, the iteration limit of MINPACK. *)
Definition sample_leastsq_failed : LeastSquares := λ _ x0, Ok (x0, 5%Z).

Definition sample_cols : gmap string loc :=
  <["r":=1%positive]>
    (<["Menc":=2%positive]>
       (<["Menc_err_neg":=3%positive]> (<["Menc_err_pos":=4%positive]> ∅))).

Definition sample_heap : gmap loc ndarray :=
  <[1%positive:=Array1 [1; 2]]>
    (<[2%positive:=Array1 [10; 30]]>
       (<[3%positive:=Array1 [1; 3]]>
          (<[4%positive:=Array1 [2; 2]]>
             (<[5%positive:=Array1 x0]> ∅)))).

Definition sample_globals : gmap string value :=
  <["tbl":=VTable sample_cols]> (<["x0":=VList x0]> ∅).

Definition sample_state : state := mkState sample_heap sample_globals [].

(** The same table with masses that the model, at the initial guess, gives
    at the radii. *)
Definition sample_state_perfect : state :=
  mkState
    (<[2%positive:=
         Array1 (model_masses (profiles:=sample_mass_profiles)
                   (get_potential (ln 6e11) (ln 20) (ln 2e9) (ln 100))
                   [1; 2])]> sample_heap)
    sample_globals [].

(** The arrays of [sample_state] as other objects of another heap. *)
Definition sample_state_moved : state :=
  mkState
    (<[11%positive:=Array1 [1; 2]]>
       (<[12%positive:=Array1 [10; 30]]>
          (<[14%positive:=Array1 [2; 2]]>
             (<[15%positive:=Array1 x0]>
                (<[1%positive:=Array2 [[7]]]> ∅)))))
    ∅ [].

(** A solver that raises, as [leastsq] does on improper input. *)
Definition sample_leastsq_raises : LeastSquares := λ _ _, Raise TypeError.

(** The sample heap with arrays of other lengths: one uncertainty, three
    masses, one radius. *)
Definition sample_state_shapes : state :=
  mkState
    (<[6%positive:=Array1 [2]]>
       (<[7%positive:=Array1 [10; 30; 50]]>
          (<[8%positive:=Array1 [1]]> sample_heap)))
    sample_globals [].

(** The sample state with a table that has no column [Menc]. *)
Definition sample_state_no_Menc : state :=
  mkState sample_heap
    (<["tbl":=VTable (delete "Menc" sample_cols)]> sample_globals) [].

(** * Properties *)

Section Properties.

Context {profiles : MassProfiles} {solver : LeastSquares}.

(** ** Running computations *)

Lemma bind_ok {A B} (c : M A) (k : A → M B) s a s' :
  c s = (Ok a, s') → (c ≫= k) s = k a s'.
Proof. intros H. unfold mbind, M_bind. by rewrite H. Qed.

Lemma bind_raise {A B} (c : M A) (k : A → M B) s e s' :
  c s = (Raise e, s') → (c ≫= k) s = (Raise e, s').
Proof. intros H. unfold mbind, M_bind. by rewrite H. Qed.

Lemma load_ok s l a : heap s !! l = Some a → load l s = (Ok a, s).
Proof. intros H. unfold load. by rewrite H. Qed.

Lemma load1_ok s l xs :
  heap s !! l = Some (Array1 xs) → load1 l s = (Ok xs, s).
Proof. intros H. unfold load1. by erewrite bind_ok by by apply load_ok. Qed.

Lemma len_ok s l xs :
  heap s !! l = Some (Array1 xs) → len l s = (Ok (length xs), s).
Proof. intros H. unfold len. by erewrite bind_ok by by apply load_ok. Qed.

(** A new object never displaces one that is there. *)
Lemma fresh_loc_None (h : gmap loc ndarray) : h !! fresh (dom h) = None.
Proof. apply not_elem_of_dom, is_fresh. Qed.

Lemma lookup_alloc_old (h : gmap loc ndarray) a l v :
  h !! l = Some v → <[fresh (dom h):=a]> h !! l = Some v.
Proof.
  intros H. rewrite lookup_insert_ne; [done|].
  intros <-. by rewrite fresh_loc_None in H.
Qed.

Lemma alloc_subseteq (h0 h : gmap loc ndarray) a :
  h0 ⊆ h → h0 ⊆ <[fresh (dom h):=a]> h.
Proof.
  intros H. apply insert_subseteq_r; [|done].
  apply (lookup_weaken_None h0 h); [apply fresh_loc_None | done].
Qed.

Lemma store_subseteq (h0 h : gmap loc ndarray) l a :
  h0 !! l = None → h0 ⊆ h → h0 ⊆ <[l:=a]> h.
Proof. intros. by apply insert_subseteq_r. Qed.

(** ** The frame of a computation *)

Lemma extends_refl s : extends s s.
Proof. by unfold extends. Qed.

Lemma extends_trans s1 s2 s3 : extends s1 s2 → extends s2 s3 → extends s1 s3.
Proof.
  intros (H1 & H2 & H3) (H4 & H5 & H6). unfold extends.
  split; [by etrans|]. split; congruence.
Qed.

Lemma extends_alloc s0 s a :
  extends s0 s → extends s0 (set_heap <[fresh (dom (heap s)):=a]> s).
Proof.
  intros (H1 & H2 & H3). split; [|done]. by apply alloc_subseteq.
Qed.

Lemma extends_store s0 s l a :
  heap s0 !! l = None → extends s0 s → extends s0 (set_heap <[l:=a]> s).
Proof.
  intros Hl (H1 & H2 & H3). split; [|done]. by apply store_subseteq.
Qed.

Lemma extends_fresh s0 s : extends s0 s → heap s0 !! fresh (dom (heap s)) = None.
Proof.
  intros (H1 & _). apply (lookup_weaken_None _ (heap s)); [|done].
  apply fresh_loc_None.
Qed.

Lemma grows_ret {A} (a : A) : grows (mret a).
Proof. intros s. apply extends_refl. Qed.

Lemma grows_raise {A} e : grows (raise (A:=A) e).
Proof. intros s. apply extends_refl. Qed.

Lemma grows_lift {A} (r : result A) : grows (lift r).
Proof. intros s. apply extends_refl. Qed.

Lemma grows_load l : grows (load l).
Proof. intros s. unfold load. destruct (heap s !! l); apply extends_refl. Qed.

Lemma grows_alloc a : grows (alloc a).
Proof. intros s. apply extends_alloc, extends_refl. Qed.

Lemma grows_bind {A B} (c : M A) (k : A → M B) :
  grows c → (∀ a, grows (k a)) → grows (c ≫= k).
Proof.
  intros Hc Hk s. unfold mbind, M_bind. specialize (Hc s).
  destruct (c s) as [[a|e] s']; simpl in *; [|done].
  eapply extends_trans; [done|]. apply Hk.
Qed.

Create HintDb grows.
#[local] Hint Resolve grows_ret grows_raise grows_lift grows_load grows_alloc
  : grows.

Ltac grows :=
  repeat first
    [ progress eauto with grows
    | apply grows_bind; [|intros ?]
    | match goal with |- grows (match ?x with _ => _ end) => destruct x end ].

Lemma grows_load1 l : grows (load1 l).
Proof. unfold load1. grows. Qed.

Lemma grows_len l : grows (len l).
Proof. unfold len. grows. Qed.

Lemma grows_np_zeros2 m n : grows (np_zeros2 m n).
Proof. unfold np_zeros2. grows. Qed.

Lemma grows_np_binary f a b : grows (np_binary f a b).
Proof. unfold np_binary. pose proof grows_load1. grows. Qed.

Lemma grows_quantity_to q u : grows (quantity_to q u).
Proof. unfold quantity_to. pose proof grows_load1. grows. Qed.

Lemma grows_mass_enclosed pot xyz : grows (mass_enclosed pot xyz).
Proof. unfold mass_enclosed. grows. Qed.

Lemma grows_load_all ls : grows (load_all ls).
Proof.
  induction ls as [|l ls IH]; simpl; [apply grows_ret|].
  pose proof grows_load1. grows.
Qed.

Lemma grows_np_max_axis0 ls : grows (np_max_axis0 ls).
Proof. unfold np_max_axis0. pose proof grows_load_all. grows. Qed.

(** A step of a computation that starts above [s0]. *)
Lemma extends_bind {A B} (c : M A) (k : A → M B) s0 s :
  extends s0 (c s).2 →
  (∀ a s', extends s0 s' → c s = (Ok a, s') → extends s0 (k a s').2) →
  extends s0 ((c ≫= k) s).2.
Proof.
  intros Hc Hk. unfold mbind, M_bind.
  destruct (c s) as [[a|e] s'] eqn:E; simpl in *; [|done].
  by apply Hk.
Qed.

Lemma extends_grows {A} (c : M A) s0 s :
  grows c → extends s0 s → extends s0 (c s).2.
Proof. intros Hc Hs. eapply extends_trans; [done | apply Hc]. Qed.

(** Writing a row of an array that [s0] does not have. *)
Lemma extends_setitem_row s0 s a i v :
  heap s0 !! a = None → extends s0 s → extends s0 (setitem_row a i v s).2.
Proof.
  intros Ha Hs. unfold setitem_row.
  apply extends_bind; [by apply extends_grows, Hs; apply grows_load|].
  intros arr s1 Hs1 _.
  apply extends_bind; [by apply extends_grows, Hs1; apply grows_load1|].
  intros xs s2 Hs2 _.
  destruct arr as [|rows]; [done|].
  destruct (rows !! i) as [row|]; [|done].
  apply extends_bind; [by apply extends_grows, Hs2; apply grows_lift|].
  intros xs' s3 Hs3 _.
  by apply extends_store.
Qed.

(** The residual function changes no object it is given and no global: in
    every state, with any arguments, whether it returns or raises. *)
Lemma err_func_frame p r Menc Menc_err s :
  extends s (err_func p r Menc Menc_err s).2.
Proof.
  unfold err_func.
  apply extends_bind;
    [apply extends_grows; [apply grows_load1 | apply extends_refl]|].
  intros pv s1 Hs1 _.
  apply extends_bind; [by apply extends_grows, Hs1; apply grows_lift|].
  intros pot s2 Hs2 _.
  apply extends_bind; [by apply extends_grows, Hs2; apply grows_len|].
  intros n s3 Hs3 _.
  apply extends_bind; [by apply extends_grows, Hs3; apply grows_np_zeros2|].
  intros xyz s4 Hs4 Hx.
  assert (heap s !! xyz = None) as Hfresh.
  { unfold np_zeros2, alloc in Hx. injection Hx as <- _.
    by apply extends_fresh. }
  apply extends_bind; [by apply extends_setitem_row|].
  intros _ s5 Hs5 _.
  apply extends_bind; [by apply extends_grows, Hs5; apply grows_mass_enclosed|].
  intros q s6 Hs6 _.
  apply extends_bind; [by apply extends_grows, Hs6; apply grows_quantity_to|].
  intros q' s7 Hs7 _.
  apply extends_bind; [by apply extends_grows, Hs7; apply grows_np_binary|].
  intros d s8 Hs8 _.
  by apply extends_grows, Hs8; apply grows_np_binary.
Qed.

Lemma positions_x_axis (rs : list R) :
  positions [rs; replicate (length rs) 0; replicate (length rs) 0]
  = Ok (map (λ r, (r, 0, 0)) rs).
Proof.
  unfold positions. rewrite !length_replicate.
  rewrite decide_True by done. f_equal.
  induction rs as [|r rs IH]; simpl; [done|]. by rewrite IH.
Qed.

Lemma broadcast_to_same n xs : length xs = n → broadcast_to n xs = Ok xs.
Proof. intros H. unfold broadcast_to. by rewrite decide_True. Qed.

Lemma broadcast2_same f xs ys :
  length xs = length ys → broadcast2 f xs ys = Ok (zip_with f xs ys).
Proof. intros H. unfold broadcast2. by rewrite decide_True. Qed.

Lemma np_binary_run f s a b xs ys :
  heap s !! a = Some (Array1 xs) → heap s !! b = Some (Array1 ys) →
  length xs = length ys →
  np_binary f a b s
  = (Ok (fresh (dom (heap s))),
     set_heap <[fresh (dom (heap s)):=Array1 (zip_with f xs ys)]> s).
Proof.
  intros Ha Hb Hlen. unfold np_binary.
  erewrite bind_ok by by apply load1_ok.
  erewrite bind_ok by by apply load1_ok.
  erewrite bind_ok by (unfold lift; by rewrite broadcast2_same).
  done.
Qed.

Lemma setitem_row_run s a i v rows row xs :
  heap s !! a = Some (Array2 rows) →
  heap s !! v = Some (Array1 xs) →
  rows !! i = Some row →
  length xs = length row →
  setitem_row a i v s = (Ok (), set_heap <[a:=Array2 (<[i:=xs]> rows)]> s).
Proof.
  intros Ha Hv Hi Hlen. unfold setitem_row.
  erewrite bind_ok by by apply load_ok.
  erewrite bind_ok by by apply load1_ok.
  rewrite Hi.
  erewrite bind_ok by (unfold lift; by rewrite broadcast_to_same).
  done.
Qed.

Lemma quantity_to_same_run s q u xs :
  q_unit q = u →
  unit_scale u u = Some 1 →
  heap s !! q_value q = Some (Array1 xs) →
  quantity_to q u s
  = (Ok (mkQuantity (fresh (dom (heap s))) u),
     set_heap <[fresh (dom (heap s)):=Array1 (map (Rmult 1) xs)]> s).
Proof.
  intros Hu Hk Hq. unfold quantity_to. rewrite Hu, Hk.
  erewrite bind_ok by by apply load1_ok.
  erewrite bind_ok by reflexivity.
  done.
Qed.

Lemma map_Rmult_1 (xs : list R) : map (Rmult 1) xs = xs.
Proof.
  induction xs as [|x xs IH]; simpl; [done|]. by rewrite IH, Rmult_1_l.
Qed.

Lemma mass_enclosed_run s pot xyz rows qs :
  heap s !! xyz = Some (Array2 rows) →
  positions rows = Ok qs →
  mass_enclosed pot xyz s
  = (Ok (mkQuantity (fresh (dom (heap s))) Msun),
     set_heap
       <[fresh (dom (heap s)):=Array1 (map (composite_mass_enclosed pot) qs)]>
       s).
Proof.
  intros Hx Hq. unfold mass_enclosed.
  erewrite bind_ok by by apply load_ok.
  cbv beta iota.
  erewrite bind_ok by (unfold lift; by rewrite Hq).
  erewrite bind_ok by reflexivity.
  done.
Qed.

(** The residual function up to the model masses: the position array and
    the masses the composite gives at its columns. *)
Lemma err_func_prefix s p r Menc Menc_err a b c d rs :
  heap s !! p = Some (Array1 [a; b; c; d]) →
  heap s !! r = Some (Array1 rs) →
  ∃ xyz model_menc s',
    err_func p r Menc Menc_err s
    = (np_subtract model_menc Menc ≫= λ d, np_divide d Menc_err) s' ∧
    extends s s' ∧
    heap s !! xyz = None ∧
    heap s' !! xyz
    = Some (Array2 (<[0%nat:=rs]> (replicate 3 (replicate (length rs) 0)))) ∧
    heap s !! model_menc = None ∧
    heap s' !! model_menc
    = Some (Array1
        (map (composite_mass_enclosed (get_potential a b c d))
           (map (λ r, (r, 0, 0)) rs))).
Proof.
  intros Hp Hr. unfold err_func.
  erewrite bind_ok by by apply load1_ok.
  erewrite bind_ok by reflexivity.
  erewrite bind_ok by by apply len_ok.
  erewrite bind_ok by reflexivity.
  set (xyz := fresh (dom (heap s))).
  set (s1 := set_heap _ s).
  assert (Hs1 : extends s s1) by apply extends_alloc, extends_refl.
  assert (Hfresh : heap s !! xyz = None) by apply fresh_loc_None.
  erewrite bind_ok; last first.
  { eapply (setitem_row_run s1 xyz 0 r); [apply lookup_insert_eq | | done |].
    - by apply lookup_alloc_old.
    - by rewrite length_replicate. }
  set (s2 := set_heap _ s1).
  assert (Hs2 : extends s s2) by by apply extends_store.
  assert (Hx2 : heap s2 !! xyz
    = Some (Array2 [rs; replicate (length rs) 0; replicate (length rs) 0])).
  { apply lookup_insert_eq. }
  erewrite bind_ok; last first.
  { eapply mass_enclosed_run; [exact Hx2 | apply positions_x_axis]. }
  set (s3 := set_heap _ s2).
  set (model := map _ (map _ rs)) in s3.
  erewrite bind_ok; last first.
  { eapply (quantity_to_same_run s3 _ Msun model); [done | done |].
    apply lookup_insert_eq. }
  rewrite map_Rmult_1.
  set (l4 := fresh (dom (heap s3))).
  set (s4 := set_heap _ s3).
  assert (Hs4 : extends s s4) by by do 2 apply extends_alloc.
  exists xyz, l4, s4. split; [done|]. split; [done|]. split; [done|].
  split.
  { apply (lookup_alloc_old (heap s3)), (lookup_alloc_old (heap s2)), Hx2. }
  split; [|apply lookup_insert_eq].
  apply extends_fresh. by apply extends_alloc.
Qed.

(** The whole evaluation on a parameter vector of four entries and three
    columns of one length. *)
Lemma err_func_run s p r Menc Menc_err a b c d rs ms es :
  heap s !! p = Some (Array1 [a; b; c; d]) →
  heap s !! r = Some (Array1 rs) →
  heap s !! Menc = Some (Array1 ms) →
  heap s !! Menc_err = Some (Array1 es) →
  length ms = length rs →
  length es = length rs →
  ∃ out s',
    err_func p r Menc Menc_err s = (Ok out, s') ∧
    extends s s' ∧
    heap s !! out = None ∧
    heap s' !! out
    = Some (Array1 (normalized_residuals
                      (model_masses (get_potential a b c d) rs) ms es)).
Proof.
  intros Hp Hr HM HE Hms Hes.
  destruct (err_func_prefix s p r Menc Menc_err a b c d rs Hp Hr)
    as (xyz & lm & s4 & -> & Hs4 & _ & _ & _ & Hlm).
  rewrite map_map in Hlm. fold (model_masses (get_potential a b c d) rs) in Hlm.
  set (model := model_masses _ rs) in *.
  assert (Hmodel : length model = length rs) by apply length_map.
  erewrite bind_ok; last first.
  { eapply (np_binary_run Rminus s4 lm Menc model ms); [done | |].
    - eapply lookup_weaken; [done | apply Hs4].
    - congruence. }
  set (l5 := fresh (dom (heap s4))).
  set (s5 := set_heap _ s4).
  assert (Hs5 : extends s s5) by by apply extends_alloc.
  unfold np_divide.
  erewrite (np_binary_run Rdiv s5 l5 Menc_err); cycle 1.
  { apply lookup_insert_eq. }
  { eapply lookup_weaken; [done | apply Hs5]. }
  { rewrite length_zip_with. lia. }
  eexists _, _. split; [reflexivity|].
  split; [by apply extends_alloc|].
  split; [by apply extends_fresh|].
  apply lookup_insert_eq.
Qed.

(** ** Running the cell *)

Lemma name_ok s x v : globals s !! x = Some v → name x s = (Ok v, s).
Proof. intros H. unfold name. by rewrite H. Qed.

Lemma table_getitem_ok s cols k l :
  cols !! k = Some l → table_getitem (VTable cols) k s = (Ok l, s).
Proof. intros H. unfold table_getitem. by rewrite H. Qed.

Lemma np_max_axis0_run s a b xs ys :
  heap s !! a = Some (Array1 xs) → heap s !! b = Some (Array1 ys) →
  length xs = length ys →
  np_max_axis0 [a; b] s
  = (Ok (fresh (dom (heap s))),
     set_heap <[fresh (dom (heap s)):=Array1 (zip_with Rmax xs ys)]> s).
Proof.
  intros Ha Hb Hlen. unfold np_max_axis0, load_all.
  erewrite bind_ok; last first.
  { erewrite bind_ok by by apply load1_ok.
    erewrite bind_ok; [reflexivity|].
    erewrite bind_ok by by apply load1_ok.
    erewrite bind_ok by reflexivity. reflexivity. }
  erewrite bind_ok; [reflexivity|].
  unfold lift, column_max. simpl.
  rewrite Hlen, Nat.eqb_refl. done.
Qed.

Lemma fit_cell_run s cols l_pos l_neg l_r l_Menc pos neg xs :
  globals s !! "tbl" = Some (VTable cols) →
  globals s !! "x0" = Some (VList xs) →
  cols !! "Menc_err_pos" = Some l_pos →
  cols !! "Menc_err_neg" = Some l_neg →
  cols !! "r" = Some l_r →
  cols !! "Menc" = Some l_Menc →
  heap s !! l_pos = Some (Array1 pos) →
  heap s !! l_neg = Some (Array1 neg) →
  length pos = length neg →
  let l_err := fresh (dom (heap s)) in
  let s0 :=
    set_globals <["err":=VArray l_err]>
      (set_heap <[l_err:=Array1 (zip_with Rmax pos neg)]> s) in
  let f := residual_at err_func (l_r, l_Menc, l_err) s0 in
  let s1 := log_call (mkCall f xs [l_r; l_Menc; l_err]) s0 in
  fit_cell s
  = match leastsq f xs with
    | Raise e => (Raise e, s1)
    | Ok (p_opt, ier) =>
        let l_p := fresh (dom (heap s1)) in
        let s2 :=
          set_globals <["ier":=VInt ier]>
            (set_globals <["p_opt":=VArray l_p]>
               (set_heap <[l_p:=Array1 p_opt]> s1)) in
        if in_range ier 1 (4 + 1) then
          match get_potential_star p_opt with
          | Ok pot =>
              (Ok (), set_globals <["fit_potential":=VPotential pot]> s2)
          | Raise e => (Raise e, s2)
          end
        else (Raise (AssertionError "least-squares fit failed!"), s2)
    end.
Proof.
  intros Htbl Hx0 Hpos Hneg Hr HM Hhpos Hhneg Hlen l_err s0 f s1.
  unfold fit_cell.
  erewrite bind_ok by by apply name_ok.
  erewrite bind_ok by by apply table_getitem_ok.
  erewrite bind_ok by by apply name_ok.
  erewrite bind_ok by by apply table_getitem_ok.
  erewrite bind_ok by by apply np_max_axis0_run.
  erewrite bind_ok by reflexivity.
  fold l_err. fold s0.
  assert (Htbl0 : globals s0 !! "tbl" = Some (VTable cols)).
  { unfold s0. simpl. by rewrite lookup_insert_ne. }
  erewrite bind_ok; last first.
  { apply name_ok. unfold s0. simpl. rewrite lookup_insert_ne; done. }
  erewrite bind_ok by by apply name_ok.
  erewrite bind_ok by by apply table_getitem_ok.
  erewrite bind_ok by by apply name_ok.
  erewrite bind_ok by by apply table_getitem_ok.
  erewrite bind_ok; last first.
  { apply name_ok. unfold s0. simpl. apply lookup_insert_eq. }
  erewrite bind_ok by reflexivity.
  erewrite bind_ok by reflexivity.
  destruct (leastsq f xs) as [[p_opt ier]|e] eqn:Hsolve.
  2: { erewrite bind_raise; [done|]. unfold call_leastsq. fold f.
       by rewrite Hsolve. }
  erewrite bind_ok; last first.
  { unfold call_leastsq. fold f. rewrite Hsolve. reflexivity. }
  cbv beta iota zeta.
  erewrite bind_ok by reflexivity.
  erewrite bind_ok by reflexivity.
  erewrite bind_ok; last first.
  { apply name_ok. simpl. apply lookup_insert_eq. }
  erewrite bind_ok by reflexivity.
  destruct (in_range ier 1 (4 + 1)) eqn:Hier.
  2: { erewrite bind_raise; [done|]. reflexivity. }
  erewrite bind_ok by reflexivity.
  erewrite bind_ok; last first.
  { apply name_ok. simpl. rewrite lookup_insert_ne by done.
    apply lookup_insert_eq. }
  erewrite bind_ok; last first.
  { apply load1_ok. simpl. apply lookup_insert_eq. }
  destruct (get_potential_star p_opt) as [pot|e] eqn:Hpot.
  - erewrite bind_ok by reflexivity. reflexivity.
  - erewrite bind_raise by reflexivity. reflexivity.
Qed.

(** ** The potential model builder *)

Lemma get_potential_components log_M_h log_r_s log_M_n log_a :
  get_potential log_M_h log_r_s log_M_n log_a
  = [("bulge", HernquistPotential (Bare 5e9) (Bare 1) galactic);
     ("disk",
      MiyamotoNagaiPotential (Qty 6.8e10 Msun) (Qty 3 kpc) (Qty 280 pc)
        galactic);
     ("nucl",
      HernquistPotential (Bare (exp log_M_n)) (Qty (exp log_a) pc) galactic);
     ("halo",
      NFWPotential (Bare (exp log_M_h)) (Bare (exp log_r_s)) galactic)].
Proof. reflexivity. Qed.

(** Assigning to a key that is not there yet appends the component. *)
Lemma setitem_new k v (d : CCompositePotential) :
  k ∉ keys d → setitem k v d = d ++ [(k, v)].
Proof.
  unfold keys. induction d as [|[k' v'] d IH]; simpl; [done|].
  intros Hk. apply not_elem_of_cons in Hk as [Hne Hk].
  rewrite decide_False by done. by rewrite IH.
Qed.

(** C10: for every four inputs the composite that [get_potential] returns
    has exactly four components, and their names are 'bulge', 'disk', 'nucl'
    and 'halo' in this order, the order of the four insertions. *)
Theorem get_potential_four_named_components
  (log_M_h log_r_s log_M_n log_a : R) :
  let pot := get_potential log_M_h log_r_s log_M_n log_a in
  length pot = 4%nat ∧
  keys pot = ["bulge"; "disk"; "nucl"; "halo"] ∧
  ∃ bulge disk nucl halo,
    pot = setitem "halo" halo
            (setitem "nucl" nucl
               (setitem "disk" disk
                  (setitem "bulge" bulge CCompositePotential_new))) ∧
    pot = [("bulge", bulge); ("disk", disk); ("nucl", nucl); ("halo", halo)].
Proof.
  split; [reflexivity|]. split; [reflexivity|].
  eexists _, _, _, _. split; reflexivity.
Qed.

(** C6: the bulge and the disk of the composite do not depend on the four
    inputs: the bulge is a Hernquist potential of mass 5e9 and scale 1, the
    disk a Miyamoto-Nagai potential of mass 6.8e10 Msun, scale length 3 kpc
    and scale height 280 pc, whatever the inputs are. *)
Theorem get_potential_fixed_bulge_disk (log_M_h log_r_s log_M_n log_a : R) :
  let pot := get_potential log_M_h log_r_s log_M_n log_a in
  getitem "bulge" pot
  = Some (HernquistPotential (Bare (5 * 10 ^ 9)) (Bare 1) galactic) ∧
  getitem "disk" pot
  = Some (MiyamotoNagaiPotential (Qty (68 * 10 ^ 9) Msun) (Qty 3 kpc)
            (Qty 280 pc) galactic).
Proof.
  split.
  - replace (5 * 10 ^ 9) with 5e9 by lra. reflexivity.
  - replace (68 * 10 ^ 9) with 6.8e10 by lra. reflexivity.
Qed.

(** *** The exponentials as float64 *)

Lemma exp_double x : exp (2 * x) = exp x * exp x.
Proof. replace (2 * x) with (x + x) by lra. apply exp_plus. Qed.

Lemma ln_2_upper : ln 2 < 0.744.
Proof.
  apply exp_lt_inv. rewrite exp_ln by lra.
  assert (1.093 < exp 0.093) as H1.
  { pose proof (exp_ineq1 0.093 ltac:(lra)). lra. }
  assert (1.194 < exp 0.186) as H2.
  { replace 0.186 with (2 * 0.093) by lra. rewrite exp_double. nra. }
  assert (1.425 < exp 0.372) as H4.
  { replace 0.372 with (2 * 0.186) by lra. rewrite exp_double. nra. }
  replace 0.744 with (2 * 0.372) by lra. rewrite exp_double. nra.
Qed.

Lemma ln_2_lower : 0.652 < ln 2.
Proof.
  apply exp_lt_inv. rewrite (exp_ln 2) by lra.
  assert (exp 0.0815 < 1.08874) as H1.
  { pose proof (exp_ineq1_le (Ropp 0.0815)) as H.
    pose proof (exp_pos 0.0815) as Hp.
    rewrite exp_Ropp in H.
    assert (0.9185 * exp 0.0815 <= 1).
    { apply (Rmult_le_compat_r (exp 0.0815)) in H; [|lra].
      rewrite Rinv_l in H by lra. lra. }
    lra. }
  pose proof (exp_pos 0.0815).
  assert (exp 0.163 < 1.1854) as H2.
  { replace 0.163 with (2 * 0.0815) by lra. rewrite exp_double. nra. }
  pose proof (exp_pos 0.163).
  assert (exp 0.326 < 1.4052) as H4.
  { replace 0.326 with (2 * 0.163) by lra. rewrite exp_double. nra. }
  pose proof (exp_pos 0.326).
  replace 0.652 with (2 * 0.326) by lra. rewrite exp_double. nra.
Qed.

Lemma powerRZ_2_exp (e : Z) : powerRZ 2 e = exp (IZR e * ln 2).
Proof. rewrite powerRZ_Rpower by lra. reflexivity. Qed.

Lemma powerRZ_2_pos (e : Z) : 0 < powerRZ 2 e.
Proof. rewrite powerRZ_2_exp. apply exp_pos. Qed.

Lemma round_half_even_floor x : (Zfloor x <= round_half_even x)%Z.
Proof.
  unfold round_half_even. destruct (Rlt_dec _ _); [lia|].
  destruct (Rlt_dec _ _); [lia|]. destruct (Z.even _); lia.
Qed.

Lemma round_half_even_small x : 0 <= x < / 2 → round_half_even x = 0%Z.
Proof.
  intros Hx. unfold round_half_even.
  rewrite (Zfloor_eq 0 x) by lra.
  destruct (Rlt_dec _ _); [reflexivity|]. lra.
Qed.

Lemma ulp_scaled_exp x e :
  exp x / powerRZ 2 e = exp (x - IZR e * ln 2).
Proof.
  rewrite powerRZ_2_exp. unfold Rdiv, Rminus.
  rewrite exp_plus, exp_Ropp. reflexivity.
Qed.

(** Underflow: the exponential of -800 or less is below half of the smallest
    float64, and [np.exp] returns 0.0. *)
Lemma np_exp_underflow x : x <= -800 → np_exp x = F64_finite 0.
Proof.
  intros Hx. pose proof ln_2_upper as Hu. pose proof ln_2_lower as Hl.
  unfold np_exp, round_float64.
  assert (ulp_exponent (exp x) = (-1074)%Z) as ->.
  { unfold ulp_exponent. rewrite ln_exp.
    assert (Zfloor (x / ln 2) < -1021)%Z; [|lia].
    apply lt_IZR. destruct (Zfloor_bound (x / ln 2)) as [Hf _].
    eapply Rle_lt_trans; [exact Hf|].
    apply (Rmult_lt_reg_r (ln 2)); [lra|].
    unfold Rdiv. rewrite Rmult_assoc, Rinv_l by lra. lra. }
  rewrite ulp_scaled_exp.
  assert (0 < exp (x - IZR (-1074) * ln 2) < / 2) as Hz.
  { split; [apply exp_pos|].
    replace (/ 2) with (exp (- ln 2)) by (rewrite exp_Ropp, exp_ln; lra).
    apply exp_increasing. lra. }
  rewrite round_half_even_small by lra.
  rewrite Rmult_0_l.
  destruct (Rle_dec _ _) as [H|_]; [|reflexivity].
  pose proof (powerRZ_2_pos 1024). lra.
Qed.

Lemma np_exp_nonneg x : float64_nonneg (np_exp x).
Proof.
  unfold np_exp, round_float64.
  destruct (Rle_dec _ _); [exact I|]. simpl.
  apply Rmult_le_pos; [|apply Rlt_le, powerRZ_2_pos].
  apply IZR_le. etransitivity; [|apply round_half_even_floor].
  apply Zfloor_lub. rewrite ulp_scaled_exp. apply Rlt_le, exp_pos.
Qed.

(** From -700 upwards the exponential is at least one unit of its last
    place, and [np.exp] returns a positive float64 (or infinity). *)
Lemma np_exp_pos x : -700 <= x → float64_pos (np_exp x).
Proof.
  intros Hx. pose proof ln_2_lower as Hl.
  unfold np_exp, round_float64.
  destruct (Rle_dec _ _); [exact I|]. simpl.
  apply Rmult_lt_0_compat; [|apply powerRZ_2_pos].
  apply IZR_lt. eapply Z.lt_le_trans; [|apply round_half_even_floor].
  assert (1 <= Zfloor (exp x / powerRZ 2 (ulp_exponent (exp x))))%Z; [|lia].
  apply Zfloor_lub. rewrite ulp_scaled_exp.
  replace 1 with (exp 0) by apply exp_0.
  assert (IZR (ulp_exponent (exp x)) * ln 2 <= x) as He.
  { unfold ulp_exponent. rewrite ln_exp.
    apply Z.max_case_strong; intros _.
    - rewrite minus_IZR.
      destruct (Zfloor_bound (x / ln 2)) as [Hf _].
      apply (Rmult_le_compat_r (ln 2)) in Hf; [|lra].
      unfold Rdiv in Hf. rewrite Rmult_assoc, Rinv_l in Hf by lra. lra.
    - lra. }
  destruct (Req_dec (x - IZR (ulp_exponent (exp x)) * ln 2) 0) as [->|Hne];
    [lra|].
  apply Rlt_le, exp_increasing. lra.
Qed.

(** C4, as amended: the free components take [np.exp] of the inputs: the
    halo has mass [np.exp(log_M_h)] and scale radius [np.exp(log_r_s)], the
    nucleus has mass [np.exp(log_M_n)] and scale length [np.exp(log_a)] (in
    parsec).  Each of the four float64 values is not negative, and it is
    strictly positive when its input is -700 or more. *)
Theorem get_potential_exponentiates_float64
  (log_M_h log_r_s log_M_n log_a : R) :
  let pot := get_potential log_M_h log_r_s log_M_n log_a in
  ∃ M_h r_s M_n a : param,
    getitem "halo" pot = Some (NFWPotential M_h r_s galactic) ∧
    getitem "nucl" pot = Some (HernquistPotential M_n a galactic) ∧
    M_h = Bare (exp log_M_h) ∧ r_s = Bare (exp log_r_s) ∧
    M_n = Bare (exp log_M_n) ∧ a = Qty (exp log_a) pc ∧
    stored_float64 M_h = np_exp log_M_h ∧
    stored_float64 r_s = np_exp log_r_s ∧
    stored_float64 M_n = np_exp log_M_n ∧
    stored_float64 a = np_exp log_a ∧
    Forall float64_nonneg
      [stored_float64 M_h; stored_float64 r_s; stored_float64 M_n;
       stored_float64 a] ∧
    (-700 <= log_M_h → float64_pos (stored_float64 M_h)) ∧
    (-700 <= log_r_s → float64_pos (stored_float64 r_s)) ∧
    (-700 <= log_M_n → float64_pos (stored_float64 M_n)) ∧
    (-700 <= log_a → float64_pos (stored_float64 a)).
Proof.
  intros pot. eexists _, _, _, _.
  split; [reflexivity|]. split; [reflexivity|].
  do 4 (split; [reflexivity|]). do 4 (split; [reflexivity|]).
  split. { repeat constructor; apply np_exp_nonneg. }
  repeat split; apply np_exp_pos.
Qed.

(** The enclosed mass of the composite of [get_potential], at any position. *)
Lemma composite_mass_enclosed_get_potential log_M_h log_r_s log_M_n log_a q :
  composite_mass_enclosed (get_potential log_M_h log_r_s log_M_n log_a) q
  = component_mass_enclosed
      (HernquistPotential (Bare 5e9) (Bare 1) galactic) q
    + component_mass_enclosed
        (MiyamotoNagaiPotential (Qty 6.8e10 Msun) (Qty 3 kpc) (Qty 280 pc)
           galactic) q
    + component_mass_enclosed
        (HernquistPotential (Bare (exp log_M_n)) (Qty (exp log_a) pc)
           galactic) q
    + component_mass_enclosed
        (NFWPotential (Bare (exp log_M_h)) (Bare (exp log_r_s)) galactic) q.
Proof.
  rewrite get_potential_components.
  unfold composite_mass_enclosed, sum_R. simpl. by rewrite Rplus_0_l.
Qed.

(** C5: at every radius [r > 0] the enclosed mass of the composite is the sum
    of the enclosed masses of its four components, bulge, disk, nucleus and
    halo, there. *)
Theorem composite_mass_enclosed_additive
  (log_M_h log_r_s log_M_n log_a : R) (x y z r : R) :
  r = sqrt (x * x + y * y + z * z) →
  0 < r →
  let pot := get_potential log_M_h log_r_s log_M_n log_a in
  ∃ bulge disk nucl halo,
    pot = [("bulge", bulge); ("disk", disk); ("nucl", nucl); ("halo", halo)] ∧
    composite_mass_enclosed pot (x, y, z)
    = component_mass_enclosed bulge (x, y, z)
      + component_mass_enclosed disk (x, y, z)
      + component_mass_enclosed nucl (x, y, z)
      + component_mass_enclosed halo (x, y, z).
Proof.
  intros _ _ pot. eexists _, _, _, _. split; [reflexivity|].
  apply composite_mass_enclosed_get_potential.
Qed.

(** ** The residual function *)

Lemma normalized_residuals_length model observed uncertainty :
  length observed = length model → length uncertainty = length model →
  length (normalized_residuals model observed uncertainty) = length model.
Proof.
  intros H1 H2. unfold normalized_residuals. rewrite !length_zip_with. lia.
Qed.

Lemma normalized_residuals_lookup model observed uncertainty i m o u :
  model !! i = Some m → observed !! i = Some o → uncertainty !! i = Some u →
  normalized_residuals model observed uncertainty !! i = Some ((m - o) / u).
Proof.
  intros Hm Ho Hu. unfold normalized_residuals.
  rewrite !lookup_zip_with, Hm, Ho, Hu. done.
Qed.

Lemma model_masses_lookup pot rs i r :
  rs !! i = Some r →
  model_masses pot rs !! i = Some (composite_mass_enclosed pot (r, 0, 0)).
Proof. intros H. unfold model_masses. by rewrite list_lookup_fmap, H. Qed.

(** C2: on a parameter vector [p] and radii, observed masses and
    uncertainties of one length [N], [err_func] returns an array of length
    [N] whose entry [i] is [(model_i - observed_i) / uncertainty_i], where
    [model_i] is the enclosed mass at the radius [r_i] of the composite that
    [get_potential] builds from [p]. *)
Theorem err_func_residuals (s : state) (p r Menc Menc_err : loc)
  (log_M_h log_r_s log_M_n log_a : R) (rs ms es : list R) :
  heap s !! p = Some (Array1 [log_M_h; log_r_s; log_M_n; log_a]) →
  heap s !! r = Some (Array1 rs) →
  heap s !! Menc = Some (Array1 ms) →
  heap s !! Menc_err = Some (Array1 es) →
  length ms = length rs →
  length es = length rs →
  ∃ out s' res,
    err_func p r Menc Menc_err s = (Ok out, s') ∧
    heap s' !! out = Some (Array1 res) ∧
    length res = length rs ∧
    ∀ i r_i m_i e_i,
      rs !! i = Some r_i → ms !! i = Some m_i → es !! i = Some e_i →
      res !! i
      = Some ((composite_mass_enclosed
                 (get_potential log_M_h log_r_s log_M_n log_a) (r_i, 0, 0)
               - m_i) / e_i).
Proof.
  intros Hp Hr HM HE Hms Hes.
  destruct (err_func_run s p r Menc Menc_err log_M_h log_r_s log_M_n log_a
              rs ms es)
    as (out & s' & Hrun & _ & _ & Hout); try done.
  eexists out, s', _. split; [done|]. split; [done|].
  assert (length (model_masses (get_potential log_M_h log_r_s log_M_n log_a) rs)
          = length rs) as Hmodel by apply length_map.
  split.
  - rewrite normalized_residuals_length; congruence.
  - intros i r_i m_i e_i Hi Hmi Hei.
    eapply normalized_residuals_lookup; [|done..].
    by apply model_masses_lookup.
Qed.

(** C7: the residual function is pure and deterministic.  Two evaluations,
    in any two states, on equal parameter vectors and equal observation data
    return arrays with equal contents, computed from the potential that
    [get_potential] builds from the parameters of that evaluation; and each
    evaluation leaves every array it was given, and the namespace, as they
    were. *)
Theorem err_func_pure_deterministic
  (s1 s2 : state) (p1 r1 Menc1 Menc_err1 p2 r2 Menc2 Menc_err2 : loc)
  (log_M_h log_r_s log_M_n log_a : R) (rs ms es : list R) :
  heap s1 !! p1 = Some (Array1 [log_M_h; log_r_s; log_M_n; log_a]) →
  heap s1 !! r1 = Some (Array1 rs) →
  heap s1 !! Menc1 = Some (Array1 ms) →
  heap s1 !! Menc_err1 = Some (Array1 es) →
  heap s2 !! p2 = Some (Array1 [log_M_h; log_r_s; log_M_n; log_a]) →
  heap s2 !! r2 = Some (Array1 rs) →
  heap s2 !! Menc2 = Some (Array1 ms) →
  heap s2 !! Menc_err2 = Some (Array1 es) →
  length ms = length rs →
  length es = length rs →
  ∃ out1 s1' out2 s2' res,
    err_func p1 r1 Menc1 Menc_err1 s1 = (Ok out1, s1') ∧
    err_func p2 r2 Menc2 Menc_err2 s2 = (Ok out2, s2') ∧
    heap s1' !! out1 = Some (Array1 res) ∧
    heap s2' !! out2 = Some (Array1 res) ∧
    res = normalized_residuals
            (model_masses (get_potential log_M_h log_r_s log_M_n log_a) rs)
            ms es ∧
    extends s1 s1' ∧ extends s2 s2' ∧
    heap s1' !! r1 = Some (Array1 rs) ∧
    heap s1' !! Menc1 = Some (Array1 ms) ∧
    heap s1' !! Menc_err1 = Some (Array1 es) ∧
    heap s1' !! p1 = Some (Array1 [log_M_h; log_r_s; log_M_n; log_a]).
Proof.
  intros Hp1 Hr1 HM1 HE1 Hp2 Hr2 HM2 HE2 Hms Hes.
  destruct (err_func_run s1 p1 r1 Menc1 Menc_err1 log_M_h log_r_s log_M_n
              log_a rs ms es)
    as (out1 & s1' & Hrun1 & Hext1 & _ & Hout1); try done.
  destruct (err_func_run s2 p2 r2 Menc2 Menc_err2 log_M_h log_r_s log_M_n
              log_a rs ms es)
    as (out2 & s2' & Hrun2 & Hext2 & _ & Hout2); try done.
  exists out1, s1', out2, s2'. eexists.
  repeat split; try done; try apply Hext1; try apply Hext2;
    (eapply lookup_weaken; [|apply Hext1]; done).
Qed.

(** Two evaluations in a row: the second, in the state the first leaves,
    finds the data unchanged and answers for its own parameter vector. *)
Lemma err_func_twice s p p' r Menc Menc_err a b c d a' b' c' d' rs ms es :
  heap s !! p = Some (Array1 [a; b; c; d]) →
  heap s !! p' = Some (Array1 [a'; b'; c'; d']) →
  heap s !! r = Some (Array1 rs) →
  heap s !! Menc = Some (Array1 ms) →
  heap s !! Menc_err = Some (Array1 es) →
  length ms = length rs →
  length es = length rs →
  ∃ out1 s1 out2 s2,
    err_func p r Menc Menc_err s = (Ok out1, s1) ∧
    err_func p' r Menc Menc_err s1 = (Ok out2, s2) ∧
    heap s2 !! out1
    = Some (Array1 (normalized_residuals
                      (model_masses (get_potential a b c d) rs) ms es)) ∧
    heap s2 !! out2
    = Some (Array1 (normalized_residuals
                      (model_masses (get_potential a' b' c' d') rs) ms es)).
Proof.
  intros Hp Hp' Hr HM HE Hms Hes.
  destruct (err_func_run s p r Menc Menc_err a b c d rs ms es)
    as (out1 & s1 & Hrun1 & Hext1 & _ & Hout1); try done.
  destruct (err_func_run s1 p' r Menc Menc_err a' b' c' d' rs ms es)
    as (out2 & s2 & Hrun2 & Hext2 & _ & Hout2); try done;
    try (eapply lookup_weaken; [|apply Hext1]; done).
  exists out1, s1, out2, s2. repeat split; try done.
  eapply lookup_weaken; [|apply Hext2]; done.
Qed.

Lemma normalized_residuals_perfect model uncertainty :
  length uncertainty = length model →
  normalized_residuals model model uncertainty = replicate (length model) 0.
Proof.
  unfold normalized_residuals. revert uncertainty.
  induction model as [|m model IH]; intros [|u us] Hlen; simpl in *;
    try done.
  rewrite IH by lia. f_equal. unfold Rdiv, Rminus.
  rewrite Rplus_opp_r. apply Rmult_0_l.
Qed.

(** C8: when the observed masses are exactly the model's enclosed masses at
    the radii for the parameter vector [p], and every uncertainty is strictly
    positive, [err_func] on [p] and these data returns the zero vector. *)
Theorem err_func_zero_at_perfect_fit (s : state) (p r Menc Menc_err : loc)
  (log_M_h log_r_s log_M_n log_a : R) (rs ms es : list R) :
  heap s !! p = Some (Array1 [log_M_h; log_r_s; log_M_n; log_a]) →
  heap s !! r = Some (Array1 rs) →
  heap s !! Menc = Some (Array1 ms) →
  heap s !! Menc_err = Some (Array1 es) →
  length es = length rs →
  ms = map (λ r_i, composite_mass_enclosed
                     (get_potential log_M_h log_r_s log_M_n log_a)
                     (r_i, 0, 0)) rs →
  Forall (λ e, 0 < e) es →
  ∃ out s',
    err_func p r Menc Menc_err s = (Ok out, s') ∧
    heap s' !! out = Some (Array1 (replicate (length rs) 0)).
Proof.
  intros Hp Hr HM HE Hes Hms _.
  assert (length ms = length rs) as Hlen by (subst ms; apply length_map).
  destruct (err_func_run s p r Menc Menc_err log_M_h log_r_s log_M_n log_a
              rs ms es)
    as (out & s' & Hrun & _ & _ & Hout); try done.
  exists out, s'. split; [done|]. rewrite Hout. do 2 f_equal.
  fold (model_masses (get_potential log_M_h log_r_s log_M_n log_a) rs) in Hms.
  subst ms. rewrite normalized_residuals_perfect by congruence.
  by rewrite Hlen.
Qed.

Lemma grows_err_func_suffix model_menc Menc Menc_err :
  grows (np_subtract model_menc Menc ≫= λ d, np_divide d Menc_err).
Proof. apply grows_bind; [|intros ?]; apply grows_np_binary. Qed.

(** C9: the model mass is evaluated at the positions [(r_i, 0, 0)]:
    [err_func] makes a new [3 x N] array of zeros and writes the radii into
    its first row only, so that column [i] is [(r_i, 0, 0)], and the masses
    that enter the residuals are those of the composite at these columns. *)
Theorem err_func_positions (s : state) (p r Menc Menc_err : loc)
  (log_M_h log_r_s log_M_n log_a : R) (rs : list R) :
  heap s !! p = Some (Array1 [log_M_h; log_r_s; log_M_n; log_a]) →
  heap s !! r = Some (Array1 rs) →
  let N := length rs in
  let pot := get_potential log_M_h log_r_s log_M_n log_a in
  let s' := (err_func p r Menc Menc_err s).2 in
  ∃ xyz model_menc rows qs,
    heap s !! xyz = None ∧
    heap s' !! xyz = Some (Array2 rows) ∧
    rows = <[0%nat:=rs]> (replicate 3 (replicate N 0)) ∧
    rows = [rs; replicate N 0; replicate N 0] ∧
    positions rows = Ok qs ∧
    length qs = N ∧
    (∀ i r_i, rs !! i = Some r_i → qs !! i = Some (r_i, 0, 0)) ∧
    heap s' !! model_menc
    = Some (Array1 (map (composite_mass_enclosed pot) qs)) ∧
    ∀ ms es,
      heap s !! Menc = Some (Array1 ms) →
      heap s !! Menc_err = Some (Array1 es) →
      length ms = N → length es = N →
      ∃ out,
        (err_func p r Menc Menc_err s).1 = Ok out ∧
        heap s' !! out
        = Some (Array1 (normalized_residuals
                          (map (composite_mass_enclosed pot) qs) ms es)).
Proof.
  intros Hp Hr N pot s'.
  destruct (err_func_prefix s p r Menc Menc_err log_M_h log_r_s log_M_n log_a
              rs Hp Hr)
    as (xyz & lm & s4 & Hrun & Hs4 & Hfresh & Hxyz & _ & Hlm).
  assert (Hgrow : heap s4 ⊆ heap s').
  { unfold s'. rewrite Hrun. apply grows_err_func_suffix. }
  exists xyz, lm, [rs; replicate N 0; replicate N 0],
    (map (λ r, (r, 0, 0)) rs).
  split; [done|]. split; [by eapply lookup_weaken|]. split; [done|].
  split; [done|]. split; [apply positions_x_axis|].
  split; [apply length_map|].
  split. { intros i r_i Hi. by rewrite list_lookup_fmap, Hi. }
  split; [by eapply lookup_weaken|].
  intros ms es HM HE Hms Hes.
  destruct (err_func_run s p r Menc Menc_err log_M_h log_r_s log_M_n log_a
              rs ms es)
    as (out & s'' & Hrun' & _ & _ & Hout); try done.
  exists out. unfold s'. rewrite Hrun'. split; [done|].
  simpl. rewrite Hout. unfold model_masses. by rewrite map_map.
Qed.

(** ** The optimizer driver *)

(** What the solver gets when it evaluates the residual function of the
    cell on a vector of four parameters. *)
Lemma residual_at_err_func s l_r l_Menc l_err a b c d rs ms es :
  heap s !! l_r = Some (Array1 rs) →
  heap s !! l_Menc = Some (Array1 ms) →
  heap s !! l_err = Some (Array1 es) →
  length ms = length rs →
  length es = length rs →
  residual_at err_func (l_r, l_Menc, l_err) s [a; b; c; d]
  = Ok (normalized_residuals (model_masses (get_potential a b c d) rs) ms es).
Proof.
  intros Hr HM HE Hms Hes. unfold residual_at.
  erewrite bind_ok by reflexivity.
  set (p := fresh (dom (heap s))).
  set (s1 := set_heap _ s).
  destruct (err_func_run s1 p l_r l_Menc l_err a b c d rs ms es)
    as (out & s' & Hrun & _ & _ & Hout);
    try done; try (by apply lookup_alloc_old); [apply lookup_insert_eq|].
  erewrite bind_ok by done.
  by erewrite load1_ok.
Qed.

Lemma zip_with_Rmax_lookup (pos neg : list R) i pos_i neg_i :
  pos !! i = Some pos_i → neg !! i = Some neg_i →
  zip_with Rmax pos neg !! i = Some (Rmax pos_i neg_i).
Proof. intros H1 H2. by rewrite lookup_zip_with, H1, H2. Qed.

(** C3: the uncertainty that the cell hands to the residual function is the
    elementwise maximum of the columns [Menc_err_pos] and [Menc_err_neg] of
    the table: the array bound to [err] has, in every row [i], the value
    [max(Menc_err_pos_i, Menc_err_neg_i)], it is the third entry of the
    [args] the solver is called with, and the function the solver evaluates
    divides by it. *)
Theorem fit_cell_uncertainty (s : state) (cols : gmap string loc)
  (l_pos l_neg l_r l_Menc : loc) (pos neg xs : list R) :
  globals s !! "tbl" = Some (VTable cols) →
  globals s !! "x0" = Some (VList xs) →
  cols !! "Menc_err_pos" = Some l_pos →
  cols !! "Menc_err_neg" = Some l_neg →
  cols !! "r" = Some l_r →
  cols !! "Menc" = Some l_Menc →
  heap s !! l_pos = Some (Array1 pos) →
  heap s !! l_neg = Some (Array1 neg) →
  length pos = length neg →
  let s' := (fit_cell s).2 in
  ∃ l_err err call,
    heap s !! l_err = None ∧
    globals s' !! "err" = Some (VArray l_err) ∧
    heap s' !! l_err = Some (Array1 err) ∧
    length err = length pos ∧
    (∀ i pos_i neg_i,
       pos !! i = Some pos_i → neg !! i = Some neg_i →
       err !! i = Some (Rmax pos_i neg_i)) ∧
    solver_calls s' = solver_calls s ++ [call] ∧
    call_args call = [l_r; l_Menc; l_err] ∧
    ∀ a b c d rs ms,
      heap s !! l_r = Some (Array1 rs) →
      heap s !! l_Menc = Some (Array1 ms) →
      length ms = length rs →
      length pos = length rs →
      call_func call [a; b; c; d]
      = Ok (normalized_residuals
              (model_masses (get_potential a b c d) rs) ms err).
Proof.
  intros Htbl Hx0 Hpos Hneg Hr HM Hhpos Hhneg Hlen s'.
  pose proof (fit_cell_run s cols l_pos l_neg l_r l_Menc pos neg xs
                Htbl Hx0 Hpos Hneg Hr HM Hhpos Hhneg Hlen) as Hrun.
  cbv zeta in Hrun.
  set (l_err := fresh (dom (heap s))) in *.
  set (err := zip_with Rmax pos neg) in *.
  set (s0 := set_globals _ (set_heap _ s)) in *.
  set (f := residual_at err_func (l_r, l_Menc, l_err) s0) in *.
  set (call := mkCall f xs [l_r; l_Menc; l_err]) in *.
  set (s1 := log_call call s0) in *.
  assert (Herr1 : heap s1 !! l_err = Some (Array1 err))
    by apply lookup_insert_eq.
  exists l_err, err, call.
  split; [apply fresh_loc_None|].
  assert (Hfinal : globals s' !! "err" = Some (VArray l_err) ∧
                   heap s' !! l_err = Some (Array1 err) ∧
                   solver_calls s' = solver_calls s ++ [call]).
  { unfold s'. rewrite Hrun.
    destruct (leastsq f xs) as [[p_opt ier]|e]; cycle 1.
    { simpl. by rewrite !lookup_insert_eq. }
    assert (∀ g : gmap string value,
      <["ier":=VInt ier]>
        (<["p_opt":=VArray (fresh (dom (heap s1)))]>
           (<["err":=VArray l_err]> g)) !! "err" = Some (VArray l_err))
      as Hg.
    { intros g. rewrite !lookup_insert_ne by done. apply lookup_insert_eq. }
    assert (<[fresh (dom (heap s1)):=Array1 p_opt]> (heap s1) !! l_err
            = Some (Array1 err)) as Hh by by apply lookup_alloc_old.
    destruct (in_range ier 1 (4 + 1));
      [destruct (get_potential_star p_opt)|]; simpl;
      rewrite ?(lookup_insert_ne _ "fit_potential") by done;
      by rewrite Hg. }
  destruct Hfinal as (? & ? & ?).
  split; [done|]. split; [done|].
  split. { unfold err. rewrite length_zip_with. lia. }
  split. { intros. by apply zip_with_Rmax_lookup. }
  split; [done|]. split; [done|].
  intros a b c d rs ms Hrs Hms Hl1 Hl2. simpl. unfold f.
  apply residual_at_err_func.
  - by apply lookup_alloc_old.
  - by apply lookup_alloc_old.
  - apply lookup_insert_eq.
  - done.
  - unfold err. rewrite length_zip_with. lia.
Qed.

Lemma in_range_1_4 (ier : Z) :
  in_range ier 1 (4 + 1) = true ↔ (ier = 1 ∨ ier = 2 ∨ ier = 3 ∨ ier = 4)%Z.
Proof.
  unfold in_range. rewrite andb_true_iff, Z.leb_le, Z.ltb_lt. lia.
Qed.

(** C1: the cell succeeds exactly when the status that [leastsq] returns is
    1, 2, 3 or 4, and then binds [fit_potential] to the potential of the
    solution.  On any other status it stops at the assertion with the
    message "least-squares fit failed!": the solver has been called once,
    with the initial guess of the notebook, there is no second call, and no
    fitted potential is bound (the names [err], [p_opt] and [ier], assigned
    before the assertion, are all the cell has added). *)
Theorem fit_cell_status (s : state) (cols : gmap string loc)
  (l_pos l_neg l_r l_Menc : loc) (pos neg xs : list R) :
  globals s !! "tbl" = Some (VTable cols) →
  globals s !! "x0" = Some (VList xs) →
  cols !! "Menc_err_pos" = Some l_pos →
  cols !! "Menc_err_neg" = Some l_neg →
  cols !! "r" = Some l_r →
  cols !! "Menc" = Some l_Menc →
  heap s !! l_pos = Some (Array1 pos) →
  heap s !! l_neg = Some (Array1 neg) →
  length pos = length neg →
  let s' := (fit_cell s).2 in
  ∃ call,
    solver_calls s' = solver_calls s ++ [call] ∧
    call_x0 call = xs ∧
    ∀ p_opt ier,
      leastsq (call_func call) xs = Ok (p_opt, ier) →
      length p_opt = 4%nat →
      let success := (ier = 1 ∨ ier = 2 ∨ ier = 3 ∨ ier = 4)%Z in
      ((fit_cell s).1 = Ok () ↔ success) ∧
      (success →
       ∃ a b c d,
         p_opt = [a; b; c; d] ∧
         globals s' !! "fit_potential"
         = Some (VPotential (get_potential a b c d))) ∧
      (¬ success →
       (fit_cell s).1 = Raise (AssertionError "least-squares fit failed!") ∧
       globals s' !! "fit_potential" = globals s !! "fit_potential" ∧
       ∃ l_err l_p,
         globals s'
         = <["ier":=VInt ier]>
             (<["p_opt":=VArray l_p]>
                (<["err":=VArray l_err]> (globals s)))).
Proof.
  intros Htbl Hx0 Hpos Hneg Hr HM Hhpos Hhneg Hlen s'.
  pose proof (fit_cell_run s cols l_pos l_neg l_r l_Menc pos neg xs
                Htbl Hx0 Hpos Hneg Hr HM Hhpos Hhneg Hlen) as Hrun.
  cbv zeta in Hrun.
  set (l_err := fresh (dom (heap s))) in *.
  set (s0 := set_globals _ (set_heap _ s)) in *.
  set (f := residual_at err_func (l_r, l_Menc, l_err) s0) in *.
  set (call := mkCall f xs [l_r; l_Menc; l_err]) in *.
  set (s1 := log_call call s0) in *.
  exists call. split.
  { unfold s'. rewrite Hrun.
    destruct (leastsq f xs) as [[p_opt ier]|e]; [|done].
    by destruct (in_range ier 1 (4 + 1));
      [destruct (get_potential_star p_opt)|]. }
  split; [done|].
  intros p_opt ier Hsolve Hlen4 success. simpl in Hsolve.
  unfold s'. rewrite Hrun, Hsolve.
  destruct p_opt as [|a [|b [|c [|d [|]]]]]; try done.
  pose proof (in_range_1_4 ier) as Hrange. fold success in Hrange.
  destruct (in_range ier 1 (4 + 1)); simpl.
  - assert success as Hs by by apply Hrange.
    split; [done|]. split; [|done]. intros _.
    exists a, b, c, d. split; [done|]. apply lookup_insert_eq.
  - assert (¬ success) as Hs.
    { intros H. by apply Hrange in H. }
    split; [done|]. split; [done|]. intros _.
    split; [done|]. split.
    + by rewrite !lookup_insert_ne.
    + by exists l_err, (fresh (dom (heap s1))).
Qed.

(** * Further properties of the code *)

(** ** The residual function on arrays of any length *)

Lemma np_binary_run_any f s a b xs ys :
  heap s !! a = Some (Array1 xs) → heap s !! b = Some (Array1 ys) →
  np_binary f a b s
  = match broadcast2 f xs ys with
    | Ok zs =>
        (Ok (fresh (dom (heap s))),
         set_heap <[fresh (dom (heap s)):=Array1 zs]> s)
    | Raise e => (Raise e, s)
    end.
Proof.
  intros Ha Hb. unfold np_binary.
  erewrite bind_ok by by apply load1_ok.
  erewrite bind_ok by by apply load1_ok.
  destruct (broadcast2 f xs ys) as [zs|e] eqn:E.
  - by erewrite bind_ok by reflexivity.
  - by erewrite bind_raise by reflexivity.
Qed.

Lemma get_potential_star_arity pv :
  length pv ≠ 4%nat → get_potential_star pv = Raise TypeError.
Proof. by destruct pv as [|a [|b [|c [|d [|]]]]]. Qed.

Lemma get_potential_star_four pv pot :
  get_potential_star pv = Ok pot →
  ∃ a b c d, pv = [a; b; c; d] ∧ pot = get_potential a b c d.
Proof.
  destruct pv as [|a [|b [|c [|d [|]]]]]; try done.
  intros [= <-]. by exists a, b, c, d.
Qed.

(** X3: a parameter vector that has not four entries is a [TypeError], and
    nothing has been built when it is raised: the state is the one of the
    call. *)
Theorem err_func_arity (s : state) (p r Menc Menc_err : loc) (pv : list R) :
  heap s !! p = Some (Array1 pv) →
  length pv ≠ 4%nat →
  err_func p r Menc Menc_err s = (Raise TypeError, s).
Proof.
  intros Hp Hlen. unfold err_func.
  erewrite bind_ok by by apply load1_ok.
  erewrite bind_raise; [done|].
  unfold lift. by rewrite get_potential_star_arity.
Qed.

(** The evaluation on one-dimensional arrays of any lengths. *)
Lemma err_func_run_any (s : state) (p r Menc Menc_err : loc)
  (pv rs ms es : list R) :
  heap s !! p = Some (Array1 pv) →
  heap s !! r = Some (Array1 rs) →
  heap s !! Menc = Some (Array1 ms) →
  heap s !! Menc_err = Some (Array1 es) →
  match err_func_value pv rs ms es with
  | Ok res =>
      ∃ out s',
        err_func p r Menc Menc_err s = (Ok out, s') ∧
        heap s !! out = None ∧
        heap s' !! out = Some (Array1 res)
  | Raise e => ∃ s', err_func p r Menc Menc_err s = (Raise e, s')
  end.
Proof.
  intros Hp Hr HM HE. unfold err_func_value.
  destruct (get_potential_star pv) as [pot|e] eqn:Hpot; cycle 1.
  { exists s. unfold err_func.
    erewrite bind_ok by by apply load1_ok.
    erewrite bind_raise; [done|]. unfold lift. by rewrite Hpot. }
  apply get_potential_star_four in Hpot as (a & b & c & d & -> & ->).
  destruct (err_func_prefix s p r Menc Menc_err a b c d rs Hp Hr)
    as (xyz & lm & s4 & -> & Hs4 & _ & _ & _ & Hlm).
  rewrite map_map in Hlm.
  fold (model_masses (get_potential a b c d) rs) in Hlm.
  set (model := model_masses _ rs) in *.
  assert (HM4 : heap s4 !! Menc = Some (Array1 ms))
    by (eapply lookup_weaken; [done | apply Hs4]).
  unfold mbind, M_bind, np_subtract.
  rewrite (np_binary_run_any Rminus s4 lm Menc model ms Hlm HM4).
  destruct (broadcast2 Rminus model ms) as [diff|e]; [|by eexists].
  set (l5 := fresh (dom (heap s4))).
  set (s5 := set_heap _ s4).
  assert (Hs5 : extends s s5) by by apply extends_alloc.
  unfold np_divide.
  rewrite (np_binary_run_any Rdiv s5 l5 Menc_err diff es);
    [|apply lookup_insert_eq | eapply lookup_weaken; [done | apply Hs5]].
  destruct (broadcast2 Rdiv diff es) as [res|e]; [|by eexists].
  eexists _, _. split; [done|]. split; [by apply extends_fresh|].
  apply lookup_insert_eq.
Qed.

(** X4: on one-dimensional arrays of any lengths the outcome of [err_func],
    the residuals it returns or the exception it raises, is the function
    [err_func_value] of the contents of its four arguments, whatever else
    the state holds; the array returned is a new one. *)
Theorem err_func_outcome (s : state) (p r Menc Menc_err : loc)
  (pv rs ms es : list R) :
  heap s !! p = Some (Array1 pv) →
  heap s !! r = Some (Array1 rs) →
  heap s !! Menc = Some (Array1 ms) →
  heap s !! Menc_err = Some (Array1 es) →
  match err_func_value pv rs ms es with
  | Ok res =>
      ∃ out s',
        err_func p r Menc Menc_err s = (Ok out, s') ∧
        heap s !! out = None ∧
        heap s' !! out = Some (Array1 res)
  | Raise e => ∃ s', err_func p r Menc Menc_err s = (Raise e, s')
  end.
Proof. apply err_func_run_any. Qed.

Lemma broadcast2_mismatch f xs ys :
  length xs ≠ length ys → length xs ≠ 1%nat → length ys ≠ 1%nat →
  broadcast2 f xs ys = Raise ValueError.
Proof.
  intros H H1 H2. unfold broadcast2. rewrite decide_False by done.
  destruct xs as [|x [|x' xs]]; try done;
    by destruct ys as [|y [|y' ys]].
Qed.

(** X5: shapes that do not broadcast are a [ValueError].  With [N] radii,
    [N] other than 1, observed masses whose number is neither [N] nor 1 make
    the subtraction raise; so do, at the division, uncertainties whose number
    is neither [N] nor 1 when there are [N] observed masses.  The arrays
    given are as they were. *)
Theorem err_func_shape_mismatch (s : state) (p r Menc Menc_err : loc)
  (a b c d : R) (rs ms es : list R) :
  heap s !! p = Some (Array1 [a; b; c; d]) →
  heap s !! r = Some (Array1 rs) →
  heap s !! Menc = Some (Array1 ms) →
  heap s !! Menc_err = Some (Array1 es) →
  length rs ≠ 1%nat →
  (length ms ≠ length rs ∧ length ms ≠ 1%nat) ∨
  (length ms = length rs ∧ length es ≠ length rs ∧ length es ≠ 1%nat) →
  ∃ s',
    err_func p r Menc Menc_err s = (Raise ValueError, s') ∧
    extends s s'.
Proof.
  intros Hp Hr HM HE HN Hshape.
  pose proof (err_func_run_any s p r Menc Menc_err _ rs ms es Hp Hr HM HE)
    as Hout.
  unfold err_func_value in Hout. simpl in Hout.
  set (model := model_masses (get_potential a b c d) rs) in *.
  assert (Hmodel : length model = length rs) by apply length_map.
  assert (Hframe : ∀ res s',
    err_func p r Menc Menc_err s = (res, s') → extends s s').
  { intros res s' Hrun.
    pose proof (err_func_frame p r Menc Menc_err s) as Hf.
    by rewrite Hrun in Hf. }
  destruct Hshape as [[H1 H2]|(H1 & H2 & H3)].
  - rewrite broadcast2_mismatch in Hout by congruence.
    destruct Hout as (s' & Hrun). exists s'. split; [done|].
    by eapply Hframe.
  - rewrite broadcast2_same in Hout by congruence.
    rewrite broadcast2_mismatch in Hout;
      [|rewrite length_zip_with; lia..|done].
    destruct Hout as (s' & Hrun). exists s'. split; [done|].
    by eapply Hframe.
Qed.

(** X6: [err_func] writes to no object it did not make.  In every state and
    with any arguments, whether it returns or raises, every array of the
    state of the call is there afterwards with the contents it had (so are
    the table columns and the parameter vector), no global name is bound or
    rebound, and the solver is not called. *)
Theorem err_func_writes_nothing (s : state) (p r Menc Menc_err : loc) :
  let s' := (err_func p r Menc Menc_err s).2 in
  (∀ l arr, heap s !! l = Some arr → heap s' !! l = Some arr) ∧
  globals s' = globals s ∧
  solver_calls s' = solver_calls s.
Proof.
  intros s'. destruct (err_func_frame p r Menc Menc_err s) as (Hh & Hg & Hc).
  split; [|done]. intros l arr Hl. by eapply lookup_weaken.
Qed.

(** X7: a single uncertainty is shared by all observations: when [Menc_err]
    has one entry [e] and there are as many observed masses as radii, the
    residual [i] is [(model_i - observed_i) / e]. *)
Theorem err_func_single_uncertainty (s : state) (p r Menc Menc_err : loc)
  (a b c d e : R) (rs ms : list R) :
  heap s !! p = Some (Array1 [a; b; c; d]) →
  heap s !! r = Some (Array1 rs) →
  heap s !! Menc = Some (Array1 ms) →
  heap s !! Menc_err = Some (Array1 [e]) →
  length ms = length rs →
  ∃ out s' res,
    err_func p r Menc Menc_err s = (Ok out, s') ∧
    heap s' !! out = Some (Array1 res) ∧
    length res = length rs ∧
    ∀ i r_i m_i,
      rs !! i = Some r_i → ms !! i = Some m_i →
      res !! i
      = Some ((composite_mass_enclosed (get_potential a b c d) (r_i, 0, 0)
               - m_i) / e).
Proof.
  intros Hp Hr HM HE Hlen.
  pose proof (err_func_run_any s p r Menc Menc_err _ rs ms [e] Hp Hr HM HE)
    as Hout.
  unfold err_func_value in Hout. simpl in Hout.
  set (model := model_masses (get_potential a b c d) rs) in *.
  assert (Hmodel : length model = length rs) by apply length_map.
  rewrite broadcast2_same in Hout by congruence.
  set (diff := zip_with Rminus model ms) in *.
  assert (Hdiff : length diff = length rs).
  { unfold diff. rewrite length_zip_with. lia. }
  assert (Hdiv : broadcast2 Rdiv diff [e] = Ok (map (λ x, x / e) diff)).
  { unfold broadcast2. destruct (decide (length diff = length [e])) as [E|E].
    - destruct diff as [|x [|]]; done.
    - destruct diff as [|x [|x' diff']]; done. }
  rewrite Hdiv in Hout. destruct Hout as (out & s' & Hrun & _ & Hres).
  eexists out, s', _. split; [done|]. split; [done|].
  split; [by rewrite length_map|].
  intros i r_i m_i Hri Hmi.
  rewrite list_lookup_fmap. unfold diff, model.
  rewrite lookup_zip_with, (model_masses_lookup _ rs i r_i Hri), Hmi. done.
Qed.

Lemma Rdiv_pos_weak_sign x e :
  0 < e → (0 <= x → 0 <= x / e) ∧ (x <= 0 → x / e <= 0).
Proof.
  intros He. assert (0 < / e) as Hi by by apply Rinv_0_lt_compat.
  unfold Rdiv. split; intros H; nra.
Qed.

(** X8: with strictly positive uncertainties a residual never has the wrong
    sign: residual [i] is not negative when the model mass is at least the
    observed one, and not positive when the model mass is at most the
    observed one. *)
Theorem err_func_residual_sign (s : state) (p r Menc Menc_err : loc)
  (a b c d : R) (rs ms es : list R) :
  heap s !! p = Some (Array1 [a; b; c; d]) →
  heap s !! r = Some (Array1 rs) →
  heap s !! Menc = Some (Array1 ms) →
  heap s !! Menc_err = Some (Array1 es) →
  length ms = length rs →
  length es = length rs →
  Forall (λ e, 0 < e) es →
  ∃ out s' res,
    err_func p r Menc Menc_err s = (Ok out, s') ∧
    heap s' !! out = Some (Array1 res) ∧
    ∀ i r_i m_i,
      rs !! i = Some r_i → ms !! i = Some m_i →
      let model_i :=
        composite_mass_enclosed (get_potential a b c d) (r_i, 0, 0) in
      ∃ res_i,
        res !! i = Some res_i ∧
        (m_i <= model_i → 0 <= res_i) ∧
        (model_i <= m_i → res_i <= 0).
Proof.
  intros Hp Hr HM HE Hms Hes Hpos.
  destruct (err_func_run s p r Menc Menc_err a b c d rs ms es)
    as (out & s' & Hrun & _ & _ & Hout); try done.
  eexists out, s', _. split; [done|]. split; [done|].
  intros i r_i m_i Hri Hmi model_i.
  assert (is_Some (es !! i)) as [e_i Hei].
  { apply lookup_lt_is_Some. rewrite Hes. by eapply lookup_lt_Some. }
  exists ((model_i - m_i) / e_i). split.
  { eapply normalized_residuals_lookup; [|done..].
    by apply model_masses_lookup. }
  assert (0 < e_i) as He.
  { rewrite Forall_lookup in Hpos. by eapply Hpos. }
  destruct (Rdiv_pos_weak_sign (model_i - m_i) e_i He) as (H1 & H2).
  split; intros; [apply H1 | apply H2]; lra.
Qed.

(** ** The frame of the fitting cell *)

Lemma grows_name x : grows (name x).
Proof.
  intros s. unfold name. destruct (globals s !! x); apply extends_refl.
Qed.

Lemma grows_table_getitem tbl k : grows (table_getitem tbl k).
Proof.
  unfold table_getitem. destruct tbl; try apply grows_raise.
  - destruct (cols !! k); [apply grows_ret | apply grows_raise].
  - destruct (getitem k pot); apply grows_raise.
Qed.

Lemma grows_as_array v : grows (as_array v).
Proof. destruct v; try apply grows_raise. apply grows_ret. Qed.

Lemma grows_as_int v : grows (as_int v).
Proof. destruct v; try apply grows_raise. apply grows_ret. Qed.

Lemma grows_as_floats v : grows (as_floats v).
Proof.
  destruct v; try apply grows_raise; [apply grows_ret | apply grows_load1].
Qed.

Lemma grows_assert cond msg : grows (assert_ cond msg).
Proof. destruct cond; [apply grows_ret | apply grows_raise]. Qed.

Lemma cell_frame_refl s : cell_frame 0 s s.
Proof. split; [done|]. split; [done|]. exists []. by rewrite app_nil_r. Qed.

Lemma cell_frame_grows {A} (c : M A) n s0 s :
  grows c → cell_frame n s0 s → cell_frame n s0 (c s).2.
Proof.
  intros Hc (Hh & Hg & Hl). destruct (Hc s) as (Hh' & Hg' & Hl').
  split; [by etrans|]. split; [|by rewrite Hl'].
  intros x Hx. rewrite Hg'. by apply Hg.
Qed.

Lemma cell_frame_assign x v n s0 s :
  x ∈ fit_cell_names → cell_frame n s0 s → cell_frame n s0 (assign x v s).2.
Proof.
  intros Hx (Hh & Hg & Hl). split; [done|]. split; [|done].
  intros y Hy. simpl. rewrite lookup_insert_ne by (intros ->; done).
  by apply Hg.
Qed.

Lemma cell_frame_call_leastsq func xs args s0 s :
  cell_frame 0 s0 s → cell_frame 1 s0 (call_leastsq func xs args s).2.
Proof.
  intros (Hh & Hg & calls & Hl & Hn). destruct args as [[a1 a2] a3].
  apply nil_length_inv in Hn as ->. rewrite app_nil_r in Hl.
  unfold call_leastsq.
  set (c := mkCall _ xs _).
  assert (cell_frame 1 s0 (log_call c s)) as Hlog.
  { split; [done|]. split; [done|]. exists [c]. simpl. by rewrite Hl. }
  destruct (leastsq _ xs) as [[p_opt ier]|e]; [|done].
  apply (cell_frame_grows (l ← alloc (Array1 p_opt); mret (l, ier)));
    [|done].
  apply grows_bind; [apply grows_alloc | intros ?; apply grows_ret].
Qed.

(** A step of a computation, with what is known of the state before the
    rest runs. *)
Lemma step_bind {A B} (P Q : state → Prop) (c : M A) (k : A → M B) s :
  P (c s).2 →
  (∀ s', P s' → Q s') →
  (∀ a s', P s' → c s = (Ok a, s') → Q (k a s').2) →
  Q ((c ≫= k) s).2.
Proof.
  intros Hc HPQ Hk. unfold mbind, M_bind.
  destruct (c s) as [[a|e] s'] eqn:E; simpl in *;
    [by apply Hk | by apply HPQ].
Qed.

Lemma fit_cell_frame_any (s : state) :
  ∃ n, (n ≤ 1)%nat ∧ cell_frame n s (fit_cell s).2.
Proof.
  set (Q := λ s', ∃ n, (n ≤ 1)%nat ∧ cell_frame n s s').
  assert (HQ0 : ∀ s', cell_frame 0 s s' → Q s')
    by (intros; exists 0%nat; eauto).
  assert (HQ1 : ∀ s', cell_frame 1 s s' → Q s')
    by (intros; exists 1%nat; eauto).
  assert (Hnames : ∀ x, x ∈ fit_cell_names ↔
    x = "err" ∨ x = "p_opt" ∨ x = "ier" ∨ x = "fit_potential").
  { intros x. unfold fit_cell_names.
    rewrite !elem_of_cons, elem_of_nil. tauto. }
  change (Q (fit_cell s).2). unfold fit_cell.
  pose proof (cell_frame_refl s) as H0.
  apply (step_bind (cell_frame 0 s) Q);
    [by apply cell_frame_grows, H0; apply grows_name | done |].
  intros tbl1 s1 H1 _.
  apply (step_bind (cell_frame 0 s) Q);
    [by apply cell_frame_grows, H1; apply grows_table_getitem | done |].
  intros c_pos s2 H2 _.
  apply (step_bind (cell_frame 0 s) Q);
    [by apply cell_frame_grows, H2; apply grows_name | done |].
  intros tbl2 s3 H3 _.
  apply (step_bind (cell_frame 0 s) Q);
    [by apply cell_frame_grows, H3; apply grows_table_getitem | done |].
  intros c_neg s4 H4 _.
  apply (step_bind (cell_frame 0 s) Q);
    [by apply cell_frame_grows, H4; apply grows_np_max_axis0 | done |].
  intros err s5 H5 _.
  apply (step_bind (cell_frame 0 s) Q);
    [apply cell_frame_assign, H5; apply Hnames; auto | done |].
  intros _ s6 H6 _.
  apply (step_bind (cell_frame 0 s) Q);
    [by apply cell_frame_grows, H6; apply grows_name | done |].
  intros vx0 s7 H7 _.
  apply (step_bind (cell_frame 0 s) Q);
    [by apply cell_frame_grows, H7; apply grows_name | done |].
  intros tbl3 s8 H8 _.
  apply (step_bind (cell_frame 0 s) Q);
    [by apply cell_frame_grows, H8; apply grows_table_getitem | done |].
  intros c_r s9 H9 _.
  apply (step_bind (cell_frame 0 s) Q);
    [by apply cell_frame_grows, H9; apply grows_name | done |].
  intros tbl4 s10 H10 _.
  apply (step_bind (cell_frame 0 s) Q);
    [by apply cell_frame_grows, H10; apply grows_table_getitem | done |].
  intros c_Menc s11 H11 _.
  apply (step_bind (cell_frame 0 s) Q);
    [by apply cell_frame_grows, H11; apply grows_name | done |].
  intros verr s12 H12 _.
  apply (step_bind (cell_frame 0 s) Q);
    [by apply cell_frame_grows, H12; apply grows_as_array | done |].
  intros lerr s13 H13 _.
  apply (step_bind (cell_frame 0 s) Q);
    [by apply cell_frame_grows, H13; apply grows_as_floats | done |].
  intros xs s14 H14 _.
  apply (step_bind (cell_frame 1 s) Q);
    [by apply cell_frame_call_leastsq | done |].
  intros [p_opt ier] s15 H15 _.
  apply (step_bind (cell_frame 1 s) Q);
    [apply cell_frame_assign, H15; apply Hnames; auto | done |].
  intros _ s16 H16 _.
  apply (step_bind (cell_frame 1 s) Q);
    [apply cell_frame_assign, H16; apply Hnames; auto | done |].
  intros _ s17 H17 _.
  apply (step_bind (cell_frame 1 s) Q);
    [by apply cell_frame_grows, H17; apply grows_name | done |].
  intros vier s18 H18 _.
  apply (step_bind (cell_frame 1 s) Q);
    [by apply cell_frame_grows, H18; apply grows_as_int | done |].
  intros ier' s19 H19 _.
  apply (step_bind (cell_frame 1 s) Q);
    [by apply cell_frame_grows, H19; apply grows_assert | done |].
  intros _ s20 H20 _.
  apply (step_bind (cell_frame 1 s) Q);
    [by apply cell_frame_grows, H20; apply grows_name | done |].
  intros vp s21 H21 _.
  apply (step_bind (cell_frame 1 s) Q);
    [by apply cell_frame_grows, H21; apply grows_as_floats | done |].
  intros pv s22 H22 _.
  apply (step_bind (cell_frame 1 s) Q);
    [by apply cell_frame_grows, H22; apply grows_lift | done |].
  intros pot s23 H23 _.
  apply HQ1, cell_frame_assign, H23. apply Hnames. auto 10.
Qed.

(** X9: whatever the state it runs in and whatever it ends with, the
    fitting cell changes no array that was there (the table is not written
    to), binds no name other than [err], [p_opt], [ier] and [fit_potential],
    and calls the solver at most once. *)
Theorem fit_cell_frame (s : state) :
  let s' := (fit_cell s).2 in
  (∀ l arr, heap s !! l = Some arr → heap s' !! l = Some arr) ∧
  (∀ x, x ≠ "err" → x ≠ "p_opt" → x ≠ "ier" → x ≠ "fit_potential" →
        globals s' !! x = globals s !! x) ∧
  ∃ calls,
    solver_calls s' = solver_calls s ++ calls ∧ (length calls ≤ 1)%nat.
Proof.
  intros s'.
  destruct (fit_cell_frame_any s)
    as (n & Hn & Hheap & Hglob & calls & Hc & Hl).
  split; [|split].
  - intros l arr Hl'. by eapply lookup_weaken.
  - intros x ????. apply Hglob. unfold fit_cell_names.
    rewrite !elem_of_cons, elem_of_nil. tauto.
  - exists calls. split; [done | lia].
Qed.

(** ** The fitting cell and the solver *)

(** The one call of the solver, whatever the solver answers. *)
Lemma fit_cell_call s cols l_pos l_neg l_r l_Menc pos neg xs :
  globals s !! "tbl" = Some (VTable cols) →
  globals s !! "x0" = Some (VList xs) →
  cols !! "Menc_err_pos" = Some l_pos →
  cols !! "Menc_err_neg" = Some l_neg →
  cols !! "r" = Some l_r →
  cols !! "Menc" = Some l_Menc →
  heap s !! l_pos = Some (Array1 pos) →
  heap s !! l_neg = Some (Array1 neg) →
  length pos = length neg →
  let l_err := fresh (dom (heap s)) in
  let s0 :=
    set_globals <["err":=VArray l_err]>
      (set_heap <[l_err:=Array1 (zip_with Rmax pos neg)]> s) in
  let f := residual_at err_func (l_r, l_Menc, l_err) s0 in
  solver_calls (fit_cell s).2
  = solver_calls s ++ [mkCall f xs [l_r; l_Menc; l_err]].
Proof.
  intros Htbl Hx0 Hpos Hneg Hr HM Hhpos Hhneg Hlen l_err s0 f.
  rewrite (fit_cell_run s cols l_pos l_neg l_r l_Menc pos neg xs) by done.
  cbv zeta. fold l_err. fold s0. fold f.
  destruct (leastsq f xs) as [[p_opt ier]|e]; [|done].
  by destruct (in_range ier 1 (4 + 1));
    [destruct (get_potential_star p_opt)|].
Qed.

(** X10: an exception of the solver is not caught: when [leastsq] raises,
    the cell raises the same exception, after this one call, and of its
    names only [err] is bound: [p_opt], [ier] and [fit_potential] are as
    before the cell. *)
Theorem fit_cell_solver_raises (s : state) (cols : gmap string loc)
  (l_pos l_neg l_r l_Menc : loc) (pos neg xs : list R) :
  globals s !! "tbl" = Some (VTable cols) →
  globals s !! "x0" = Some (VList xs) →
  cols !! "Menc_err_pos" = Some l_pos →
  cols !! "Menc_err_neg" = Some l_neg →
  cols !! "r" = Some l_r →
  cols !! "Menc" = Some l_Menc →
  heap s !! l_pos = Some (Array1 pos) →
  heap s !! l_neg = Some (Array1 neg) →
  length pos = length neg →
  let s' := (fit_cell s).2 in
  ∃ call l_err,
    solver_calls s' = solver_calls s ++ [call] ∧
    ∀ e,
      leastsq (call_func call) xs = Raise e →
      (fit_cell s).1 = Raise e ∧
      globals s' = <["err":=VArray l_err]> (globals s).
Proof.
  intros Htbl Hx0 Hpos Hneg Hr HM Hhpos Hhneg Hlen s'.
  eexists _, (fresh (dom (heap s))). split.
  { by eapply fit_cell_call. }
  simpl. intros e Hsolve. unfold s'.
  rewrite (fit_cell_run s cols l_pos l_neg l_r l_Menc pos neg xs) by done.
  cbv zeta. by rewrite Hsolve.
Qed.

(** X11: a table without one of its columns is a [KeyError] for the first
    column the cell asks for and does not find, in the order
    [Menc_err_pos], [Menc_err_neg], [r], [Menc], and the solver is not
    called.  For an uncertainty column the state is the one the cell started
    in; for [r] or [Menc], which are read after the assignment to [err],
    only [err] has been bound. *)
Theorem fit_cell_missing_column (s : state) (cols : gmap string loc) :
  globals s !! "tbl" = Some (VTable cols) →
  (cols !! "Menc_err_pos" = None →
   fit_cell s = (Raise (KeyError "Menc_err_pos"), s)) ∧
  (is_Some (cols !! "Menc_err_pos") → cols !! "Menc_err_neg" = None →
   fit_cell s = (Raise (KeyError "Menc_err_neg"), s)) ∧
  (∀ l_pos l_neg pos neg v k,
     cols !! "Menc_err_pos" = Some l_pos →
     cols !! "Menc_err_neg" = Some l_neg →
     heap s !! l_pos = Some (Array1 pos) →
     heap s !! l_neg = Some (Array1 neg) →
     length pos = length neg →
     globals s !! "x0" = Some v →
     (k = "r" ∧ cols !! "r" = None) ∨
     (k = "Menc" ∧ is_Some (cols !! "r") ∧ cols !! "Menc" = None) →
     let s' := (fit_cell s).2 in
     (fit_cell s).1 = Raise (KeyError k) ∧
     solver_calls s' = solver_calls s ∧
     globals s' = <["err":=VArray (fresh (dom (heap s)))]> (globals s)).
Proof.
  intros Htbl. split; [|split].
  - intros Hpos. unfold fit_cell.
    erewrite bind_ok by by apply name_ok.
    erewrite bind_raise; [done|]. unfold table_getitem. by rewrite Hpos.
  - intros [l_pos Hpos] Hneg. unfold fit_cell.
    erewrite bind_ok by by apply name_ok.
    erewrite bind_ok by by apply table_getitem_ok.
    erewrite bind_ok by by apply name_ok.
    erewrite bind_raise; [done|]. unfold table_getitem. by rewrite Hneg.
  - intros l_pos l_neg pos neg v k Hpos Hneg Hhpos Hhneg Hlen Hx0 Hk s'.
    unfold s', fit_cell.
    erewrite bind_ok by by apply name_ok.
    erewrite bind_ok by by apply table_getitem_ok.
    erewrite bind_ok by by apply name_ok.
    erewrite bind_ok by by apply table_getitem_ok.
    erewrite bind_ok by by apply np_max_axis0_run.
    erewrite bind_ok by reflexivity.
    set (s0 := set_globals _ (set_heap _ s)).
    assert (Htbl0 : globals s0 !! "tbl" = Some (VTable cols)).
    { unfold s0. simpl. by rewrite lookup_insert_ne. }
    erewrite bind_ok; last first.
    { apply name_ok. unfold s0. simpl. rewrite lookup_insert_ne; done. }
    erewrite bind_ok by by apply name_ok.
    destruct Hk as [[-> Hr]|(-> & [l_r Hr] & HM)].
    + erewrite bind_raise; last first.
      { unfold table_getitem. rewrite Hr. reflexivity. }
      done.
    + erewrite bind_ok by by apply table_getitem_ok.
      erewrite bind_ok by by apply name_ok.
      erewrite bind_raise; last first.
      { unfold table_getitem. rewrite HM. reflexivity. }
      done.
Qed.

(** The function the solver evaluates, on parameter vectors of any length. *)
Lemma residual_at_err_func_value s l_r l_Menc l_err pv rs ms es :
  heap s !! l_r = Some (Array1 rs) →
  heap s !! l_Menc = Some (Array1 ms) →
  heap s !! l_err = Some (Array1 es) →
  residual_at err_func (l_r, l_Menc, l_err) s pv
  = err_func_value pv rs ms es.
Proof.
  intros Hr HM HE. unfold residual_at.
  erewrite bind_ok by reflexivity.
  set (p := fresh (dom (heap s))).
  set (s1 := set_heap _ s).
  pose proof (err_func_run_any s1 p l_r l_Menc l_err pv rs ms es) as Hout.
  destruct (err_func_value pv rs ms es) as [res|e].
  - destruct Hout as (out & s' & Hrun & _ & Hres);
      try (by apply lookup_alloc_old); [apply lookup_insert_eq|].
    erewrite bind_ok by done. by erewrite load1_ok.
  - destruct Hout as (s' & Hrun);
      try (by apply lookup_alloc_old); [apply lookup_insert_eq|].
    by erewrite bind_raise.
Qed.

(** X12: when in every row of the table at least one of the two
    uncertainties is strictly positive, the residuals that the solver gets
    from the cell, for a vector of four parameters whose model masses are
    the observed masses, are all zero. *)
Theorem fit_cell_residuals_zero_at_fit (s : state) (cols : gmap string loc)
  (l_pos l_neg l_r l_Menc : loc) (pos neg xs rs ms : list R) :
  globals s !! "tbl" = Some (VTable cols) →
  globals s !! "x0" = Some (VList xs) →
  cols !! "Menc_err_pos" = Some l_pos →
  cols !! "Menc_err_neg" = Some l_neg →
  cols !! "r" = Some l_r →
  cols !! "Menc" = Some l_Menc →
  heap s !! l_pos = Some (Array1 pos) →
  heap s !! l_neg = Some (Array1 neg) →
  heap s !! l_r = Some (Array1 rs) →
  heap s !! l_Menc = Some (Array1 ms) →
  length ms = length rs →
  length pos = length rs →
  Forall2 (λ pos_i neg_i, 0 < pos_i ∨ 0 < neg_i) pos neg →
  ∃ call,
    solver_calls (fit_cell s).2 = solver_calls s ++ [call] ∧
    ∀ a b c d,
      model_masses (get_potential a b c d) rs = ms →
      call_func call [a; b; c; d] = Ok (replicate (length rs) 0).
Proof.
  intros Htbl Hx0 Hpos Hneg Hr HM Hhpos Hhneg Hhr HhM Hms Hlenp Hsome.
  assert (Hlen : length pos = length neg) by by eapply Forall2_length.
  eexists. split; [by eapply fit_cell_call|].
  intros a b c d Hfit. cbn [call_func].
  set (err := zip_with Rmax pos neg).
  rewrite (residual_at_err_func_value _ l_r l_Menc _ _ rs ms err);
    [|by apply lookup_alloc_old..|apply lookup_insert_eq].
  unfold err_func_value. simpl. rewrite Hfit.
  assert (Herr : length err = length rs).
  { unfold err. rewrite length_zip_with. lia. }
  rewrite broadcast2_same by done.
  rewrite broadcast2_same by (rewrite length_zip_with; lia).
  f_equal. rewrite <- Hms.
  apply normalized_residuals_perfect. congruence.
Qed.


(** How the cell ends, and what [fit_potential] is bound to afterwards, as
    functions of the answer of the solver. *)
Lemma fit_cell_result s cols l_pos l_neg l_r l_Menc pos neg xs :
  globals s !! "tbl" = Some (VTable cols) →
  globals s !! "x0" = Some (VList xs) →
  cols !! "Menc_err_pos" = Some l_pos →
  cols !! "Menc_err_neg" = Some l_neg →
  cols !! "r" = Some l_r →
  cols !! "Menc" = Some l_Menc →
  heap s !! l_pos = Some (Array1 pos) →
  heap s !! l_neg = Some (Array1 neg) →
  length pos = length neg →
  let l_err := fresh (dom (heap s)) in
  let s0 :=
    set_globals <["err":=VArray l_err]>
      (set_heap <[l_err:=Array1 (zip_with Rmax pos neg)]> s) in
  let f := residual_at err_func (l_r, l_Menc, l_err) s0 in
  (fit_cell s).1
  = match leastsq f xs with
    | Ok (p_opt, ier) =>
        if in_range ier 1 (4 + 1)
        then match get_potential_star p_opt with
             | Ok _ => Ok ()
             | Raise e => Raise e
             end
        else Raise (AssertionError "least-squares fit failed!")
    | Raise e => Raise e
    end ∧
  globals (fit_cell s).2 !! "fit_potential"
  = match leastsq f xs with
    | Ok (p_opt, ier) =>
        if in_range ier 1 (4 + 1)
        then match get_potential_star p_opt with
             | Ok pot => Some (VPotential pot)
             | Raise _ => globals s !! "fit_potential"
             end
        else globals s !! "fit_potential"
    | Raise _ => globals s !! "fit_potential"
    end.
Proof.
  intros Htbl Hx0 Hpos Hneg Hr HM Hhpos Hhneg Hlen l_err s0 f.
  rewrite (fit_cell_run s cols l_pos l_neg l_r l_Menc pos neg xs) by done.
  cbv zeta. fold l_err. fold s0. fold f.
  destruct (leastsq f xs) as [[p_opt ier]|e]; simpl.
  2: { by rewrite lookup_insert_ne. }
  destruct (in_range ier 1 (4 + 1));
    [destruct (get_potential_star p_opt)|]; simpl;
    rewrite ?lookup_insert_eq, ?lookup_insert_ne by done; done.
Qed.

(** X13: running the cell again gives the same fit.  With a solver whose
    answer depends on the residual function only through the values the
    function returns, a second run of the cell, in the state the first one
    leaves, ends the way the first did (the same exception, or normally),
    binds [fit_potential] to the same potential, and has called the solver
    again with the same initial guess and a function of the same values. *)
Theorem fit_cell_again (s : state) (cols : gmap string loc)
  (l_pos l_neg l_r l_Menc : loc) (pos neg xs rs ms : list R) :
  (∀ f g x, (∀ pv, f pv = g pv) → leastsq f x = leastsq g x) →
  globals s !! "tbl" = Some (VTable cols) →
  globals s !! "x0" = Some (VList xs) →
  cols !! "Menc_err_pos" = Some l_pos →
  cols !! "Menc_err_neg" = Some l_neg →
  cols !! "r" = Some l_r →
  cols !! "Menc" = Some l_Menc →
  heap s !! l_pos = Some (Array1 pos) →
  heap s !! l_neg = Some (Array1 neg) →
  heap s !! l_r = Some (Array1 rs) →
  heap s !! l_Menc = Some (Array1 ms) →
  length pos = length neg →
  let run1 := fit_cell s in
  let run2 := fit_cell run1.2 in
  run2.1 = run1.1 ∧
  globals run2.2 !! "fit_potential" = globals run1.2 !! "fit_potential" ∧
  ∃ call1 call2,
    solver_calls run2.2 = solver_calls s ++ [call1; call2] ∧
    call_x0 call1 = xs ∧ call_x0 call2 = xs ∧
    ∀ pv, call_func call2 pv = call_func call1 pv.
Proof.
  intros Hext Htbl Hx0 Hpos Hneg Hr HM Hhpos Hhneg Hhr HhM Hlen run1 run2.
  destruct (fit_cell_frame_any s) as (n & _ & Hheap & Hglob & _).
  fold run1 in Hheap, Hglob.
  assert (Hnot : ∀ x, x ≠ "err" → x ≠ "p_opt" → x ≠ "ier" →
                      x ≠ "fit_potential" → x ∉ fit_cell_names).
  { intros x ????. unfold fit_cell_names.
    rewrite !elem_of_cons, elem_of_nil. tauto. }
  assert (Htbl1 : globals run1.2 !! "tbl" = Some (VTable cols))
    by by rewrite Hglob by by apply Hnot.
  assert (Hx01 : globals run1.2 !! "x0" = Some (VList xs))
    by by rewrite Hglob by by apply Hnot.
  assert (Hw : ∀ l arr, heap s !! l = Some arr → heap run1.2 !! l = Some arr).
  { intros l arr Hl. by eapply lookup_weaken. }
  pose proof (fit_cell_call s cols l_pos l_neg l_r l_Menc pos neg xs
                Htbl Hx0 Hpos Hneg Hr HM Hhpos Hhneg Hlen) as Hcall1.
  pose proof (fit_cell_call run1.2 cols l_pos l_neg l_r l_Menc pos neg xs
                Htbl1 Hx01 Hpos Hneg Hr HM (Hw _ _ Hhpos) (Hw _ _ Hhneg) Hlen)
    as Hcall2.
  destruct (fit_cell_result s cols l_pos l_neg l_r l_Menc pos neg xs
              Htbl Hx0 Hpos Hneg Hr HM Hhpos Hhneg Hlen) as [Hres1 Hfp1].
  destruct (fit_cell_result run1.2 cols l_pos l_neg l_r l_Menc pos neg xs
              Htbl1 Hx01 Hpos Hneg Hr HM (Hw _ _ Hhpos) (Hw _ _ Hhneg) Hlen)
    as [Hres2 Hfp2].
  cbv zeta in Hcall1, Hcall2, Hres1, Hfp1, Hres2, Hfp2.
  fold run1 in Hcall1, Hres1, Hfp1. fold run2 in Hcall2, Hres2, Hfp2.
  set (err := zip_with Rmax pos neg) in *.
  set (f1 := residual_at err_func (l_r, l_Menc, fresh (dom (heap s))) _) in *.
  set (f2 := residual_at err_func
               (l_r, l_Menc, fresh (dom (heap run1.2))) _) in *.
  assert (Hf1 : ∀ pv, f1 pv = err_func_value pv rs ms err).
  { intros pv. unfold f1. apply residual_at_err_func_value;
      [by apply lookup_alloc_old..|apply lookup_insert_eq]. }
  assert (Hf2 : ∀ pv, f2 pv = err_func_value pv rs ms err).
  { intros pv. unfold f2. apply residual_at_err_func_value;
      [by apply lookup_alloc_old, Hw..|apply lookup_insert_eq]. }
  assert (Hf : ∀ pv, f2 pv = f1 pv) by (intros; by rewrite Hf1, Hf2).
  assert (Hsolve : leastsq f2 xs = leastsq f1 xs) by by apply Hext.
  rewrite Hsolve in Hres2, Hfp2.
  split; [congruence|]. split.
  - rewrite Hfp2, Hfp1.
    destruct (leastsq f1 xs) as [[p_opt ier]|e]; [|done].
    by destruct (in_range ier 1 (4 + 1));
      [destruct (get_potential_star p_opt)|].
  - eexists _, _. split.
    { rewrite Hcall2, Hcall1, <- app_assoc. reflexivity. }
    done.
Qed.

(** X14: one radius is broadcast against the observations: with a single
    radius [r0] and [M] observed masses and uncertainties, [err_func] does
    not raise: it returns [M] residuals, every one of them measured from
    the model mass at [r0]. *)
Theorem err_func_single_radius (s : state) (p r Menc Menc_err : loc)
  (a b c d r0 : R) (ms es : list R) :
  heap s !! p = Some (Array1 [a; b; c; d]) →
  heap s !! r = Some (Array1 [r0]) →
  heap s !! Menc = Some (Array1 ms) →
  heap s !! Menc_err = Some (Array1 es) →
  length es = length ms →
  ∃ out s' res,
    err_func p r Menc Menc_err s = (Ok out, s') ∧
    heap s' !! out = Some (Array1 res) ∧
    length res = length ms ∧
    ∀ i m_i e_i,
      ms !! i = Some m_i → es !! i = Some e_i →
      res !! i
      = Some ((composite_mass_enclosed (get_potential a b c d) (r0, 0, 0)
               - m_i) / e_i).
Proof.
  intros Hp Hr HM HE Hlen.
  pose proof (err_func_run_any s p r Menc Menc_err _ [r0] ms es Hp Hr HM HE)
    as Hout.
  unfold err_func_value in Hout. simpl in Hout.
  set (m0 := composite_mass_enclosed (get_potential a b c d) (r0, 0, 0)) in *.
  assert (Hsub : broadcast2 Rminus [m0] ms = Ok (map (Rminus m0) ms)).
  { unfold broadcast2. destruct (decide (length [m0] = length ms)) as [E|E].
    - by destruct ms as [|m [|]].
    - done. }
  rewrite Hsub, broadcast2_same in Hout by (rewrite length_map; lia).
  destruct Hout as (out & s' & Hrun & _ & Hres).
  eexists out, s', _. split; [done|]. split; [done|].
  split. { rewrite length_zip_with, length_map. lia. }
  intros i m_i e_i Hmi Hei.
  by rewrite lookup_zip_with, list_lookup_fmap, Hmi, Hei.
Qed.

(** ** The cell of the initial guess *)

Lemma init_cell_run s :
  init_cell s
  = (Ok (),
     set_globals
       <["init_potential":=
           VPotential (get_potential (ln 6e11) (ln 20) (ln 2e9) (ln 100))]>
       (set_globals <["x0":=VList x0]> s)).
Proof.
  unfold init_cell.
  erewrite bind_ok by reflexivity.
  erewrite bind_ok by (apply name_ok; apply lookup_insert_eq).
  erewrite bind_ok by reflexivity.
  erewrite bind_ok by reflexivity.
  reflexivity.
Qed.

(** X15: the two cells in a row.  The cell of the initial guess always ends
    normally, touches no array, and binds [x0] to a list of four numbers and
    [init_potential] to the potential that [get_potential] builds from
    them; the fitting cell that runs next, on a table, calls the solver
    once, with this very list as the initial guess. *)
Theorem init_cell_then_fit_cell (s : state) (cols : gmap string loc)
  (l_pos l_neg l_r l_Menc : loc) (pos neg : list R) :
  globals s !! "tbl" = Some (VTable cols) →
  cols !! "Menc_err_pos" = Some l_pos →
  cols !! "Menc_err_neg" = Some l_neg →
  cols !! "r" = Some l_r →
  cols !! "Menc" = Some l_Menc →
  heap s !! l_pos = Some (Array1 pos) →
  heap s !! l_neg = Some (Array1 neg) →
  length pos = length neg →
  let s1 := (init_cell s).2 in
  (init_cell s).1 = Ok () ∧
  heap s1 = heap s ∧
  ∃ a b c d,
    globals s1 !! "x0" = Some (VList [a; b; c; d]) ∧
    globals s1 !! "init_potential"
    = Some (VPotential (get_potential a b c d)) ∧
    ∃ call,
      solver_calls (fit_cell s1).2 = solver_calls s ++ [call] ∧
      call_x0 call = [a; b; c; d].
Proof.
  intros Htbl Hpos Hneg Hr HM Hhpos Hhneg Hlen s1.
  unfold s1. rewrite init_cell_run. simpl.
  split; [done|]. split; [done|].
  exists (ln 6e11), (ln 20), (ln 2e9), (ln 100).
  split. { rewrite lookup_insert_ne by done. apply lookup_insert_eq. }
  split; [apply lookup_insert_eq|].
  set (s1' := set_globals _ (set_globals _ s)).
  pose proof (fit_cell_call s1' cols l_pos l_neg l_r l_Menc pos neg x0)
    as Hcall.
  cbv zeta in Hcall. eexists. split.
  - change (solver_calls s) with (solver_calls s1').
    apply Hcall; try done; simpl.
    + by rewrite !lookup_insert_ne.
    + rewrite lookup_insert_ne by done. apply lookup_insert_eq.
  - reflexivity.
Qed.

End Properties.

(** * The theorems at the sample data *)

Lemma composite_mass_enclosed_additive_sample :
  ∃ bulge disk nucl halo,
    get_potential (ln 6e11) (ln 20) (ln 2e9) (ln 100)
    = [("bulge", bulge); ("disk", disk); ("nucl", nucl); ("halo", halo)] ∧
    composite_mass_enclosed (profiles:=sample_mass_profiles)
      (get_potential (ln 6e11) (ln 20) (ln 2e9) (ln 100)) (1, 0, 0)
    = sample_mass_profiles bulge (1, 0, 0)
      + sample_mass_profiles disk (1, 0, 0)
      + sample_mass_profiles nucl (1, 0, 0)
      + sample_mass_profiles halo (1, 0, 0).
Proof.
  apply (composite_mass_enclosed_additive (profiles:=sample_mass_profiles)
           (ln 6e11) (ln 20) (ln 2e9) (ln 100) 1 0 0 1).
  - replace (1 * 1 + 0 * 0 + 0 * 0) with 1 by lra. symmetry. apply sqrt_1.
  - lra.
Defined.

Lemma err_func_residuals_sample :
  ∃ out s' res,
    err_func (profiles:=sample_mass_profiles) 5 1 2 4 sample_state
    = (Ok out, s') ∧
    heap s' !! out = Some (Array1 res) ∧
    length res = 2%nat ∧
    ∀ i r_i m_i e_i,
      [1; 2] !! i = Some r_i → [10; 30] !! i = Some m_i →
      [2; 2] !! i = Some e_i →
      res !! i
      = Some ((composite_mass_enclosed (profiles:=sample_mass_profiles)
                 (get_potential (ln 6e11) (ln 20) (ln 2e9) (ln 100))
                 (r_i, 0, 0) - m_i) / e_i).
Proof.
  apply (err_func_residuals (profiles:=sample_mass_profiles) sample_state
           5 1 2 4 (ln 6e11) (ln 20) (ln 2e9) (ln 100)
           [1; 2] [10; 30] [2; 2]); reflexivity.
Defined.

Lemma err_func_pure_deterministic_sample :
  ∃ out1 s1' out2 s2' res,
    err_func (profiles:=sample_mass_profiles) 5 1 2 4 sample_state
    = (Ok out1, s1') ∧
    err_func (profiles:=sample_mass_profiles) 15 11 12 14 sample_state_moved
    = (Ok out2, s2') ∧
    heap s1' !! out1 = Some (Array1 res) ∧
    heap s2' !! out2 = Some (Array1 res) ∧
    res = normalized_residuals
            (model_masses (profiles:=sample_mass_profiles)
               (get_potential (ln 6e11) (ln 20) (ln 2e9) (ln 100)) [1; 2])
            [10; 30] [2; 2] ∧
    extends sample_state s1' ∧ extends sample_state_moved s2' ∧
    heap s1' !! 1%positive = Some (Array1 [1; 2]) ∧
    heap s1' !! 2%positive = Some (Array1 [10; 30]) ∧
    heap s1' !! 4%positive = Some (Array1 [2; 2]) ∧
    heap s1' !! 5%positive = Some (Array1 x0).
Proof.
  apply (err_func_pure_deterministic (profiles:=sample_mass_profiles)
           sample_state sample_state_moved 5 1 2 4 15 11 12 14
           (ln 6e11) (ln 20) (ln 2e9) (ln 100) [1; 2] [10; 30] [2; 2]);
    reflexivity.
Defined.

Lemma err_func_zero_at_perfect_fit_sample :
  ∃ out s',
    err_func (profiles:=sample_mass_profiles) 5 1 2 4 sample_state_perfect
    = (Ok out, s') ∧
    heap s' !! out = Some (Array1 [0; 0]).
Proof.
  apply (err_func_zero_at_perfect_fit (profiles:=sample_mass_profiles)
           sample_state_perfect 5 1 2 4 (ln 6e11) (ln 20) (ln 2e9) (ln 100)
           [1; 2]
           (model_masses (profiles:=sample_mass_profiles)
              (get_potential (ln 6e11) (ln 20) (ln 2e9) (ln 100)) [1; 2])
           [2; 2]); try reflexivity.
  repeat constructor; lra.
Defined.

Lemma err_func_positions_sample :
  let s' :=
    (err_func (profiles:=sample_mass_profiles) 5 1 2 4 sample_state).2 in
  ∃ xyz model_menc rows qs,
    heap sample_state !! xyz = None ∧
    heap s' !! xyz = Some (Array2 rows) ∧
    rows = <[0%nat:=[1; 2]]> (replicate 3 (replicate 2 0)) ∧
    rows = [[1; 2]; [0; 0]; [0; 0]] ∧
    positions rows = Ok qs ∧
    length qs = 2%nat ∧
    (∀ i r_i, [1; 2] !! i = Some r_i → qs !! i = Some (r_i, 0, 0)) ∧
    heap s' !! model_menc
    = Some (Array1
        (map (composite_mass_enclosed (profiles:=sample_mass_profiles)
                (get_potential (ln 6e11) (ln 20) (ln 2e9) (ln 100))) qs)) ∧
    ∀ ms es,
      heap sample_state !! 2%positive = Some (Array1 ms) →
      heap sample_state !! 4%positive = Some (Array1 es) →
      length ms = 2%nat → length es = 2%nat →
      ∃ out,
        (err_func (profiles:=sample_mass_profiles) 5 1 2 4 sample_state).1
        = Ok out ∧
        heap s' !! out
        = Some (Array1 (normalized_residuals
             (map (composite_mass_enclosed (profiles:=sample_mass_profiles)
                     (get_potential (ln 6e11) (ln 20) (ln 2e9) (ln 100))) qs)
             ms es)).
Proof.
  apply (err_func_positions (profiles:=sample_mass_profiles) sample_state
           5 1 2 4 (ln 6e11) (ln 20) (ln 2e9) (ln 100) [1; 2]); reflexivity.
Defined.

Lemma fit_cell_uncertainty_sample :
  let s' :=
    (fit_cell (profiles:=sample_mass_profiles) (solver:=sample_leastsq)
       sample_state).2 in
  ∃ l_err err call,
    heap sample_state !! l_err = None ∧
    globals s' !! "err" = Some (VArray l_err) ∧
    heap s' !! l_err = Some (Array1 err) ∧
    length err = 2%nat ∧
    (∀ i pos_i neg_i,
       [2; 2] !! i = Some pos_i → [1; 3] !! i = Some neg_i →
       err !! i = Some (Rmax pos_i neg_i)) ∧
    solver_calls s' = [call] ∧
    call_args call = [1%positive; 2%positive; l_err] ∧
    ∀ a b c d rs ms,
      heap sample_state !! 1%positive = Some (Array1 rs) →
      heap sample_state !! 2%positive = Some (Array1 ms) →
      length ms = length rs →
      2%nat = length rs →
      call_func call [a; b; c; d]
      = Ok (normalized_residuals
              (model_masses (profiles:=sample_mass_profiles)
                 (get_potential a b c d) rs) ms err).
Proof.
  apply (fit_cell_uncertainty (profiles:=sample_mass_profiles)
           (solver:=sample_leastsq) sample_state sample_cols 4 3 1 2
           [2; 2] [1; 3] x0); reflexivity.
Defined.

Lemma fit_cell_status_sample :
  (fit_cell (profiles:=sample_mass_profiles) (solver:=sample_leastsq)
     sample_state).1 = Ok ().
Proof.
  destruct (fit_cell_status (profiles:=sample_mass_profiles)
              (solver:=sample_leastsq) sample_state sample_cols 4 3 1 2
              [2; 2] [1; 3] x0 eq_refl eq_refl eq_refl eq_refl eq_refl
              eq_refl eq_refl eq_refl eq_refl)
    as (call & _ & _ & Hstatus).
  destruct (Hstatus x0 1%Z eq_refl eq_refl) as (Hiff & _).
  apply Hiff. left. reflexivity.
Defined.

(** The cell on the sample table with the solver that gives up: it stops at
    the assertion, and [fit_potential] is not bound. *)
Lemma fit_cell_sample_failure :
  let run :=
    fit_cell (profiles:=sample_mass_profiles) (solver:=sample_leastsq_failed)
      sample_state in
  run.1 = Raise (AssertionError "least-squares fit failed!") ∧
  globals run.2 !! "fit_potential" = None ∧
  globals run.2 !! "ier" = Some (VInt 5) ∧
  length (solver_calls run.2) = 1%nat.
Proof.
  intros run. unfold run.
  rewrite (fit_cell_run (profiles:=sample_mass_profiles)
             (solver:=sample_leastsq_failed) sample_state sample_cols 4 3 1 2
             [2; 2] [1; 3] x0) by reflexivity.
  repeat split.
Qed.

(** The claim C4 as it was stated fails at the inputs [(0, 0, -800, -800)]:
    [np.exp] underflows, and the nucleus is built with the mass 0.0 and the
    scale length 0.0 pc, which are not strictly positive. *)
Lemma get_potential_underflow :
  ∃ M_n a : param,
    getitem "nucl" (get_potential 0 0 (-800) (-800))
    = Some (HernquistPotential M_n a galactic) ∧
    stored_float64 M_n = np_exp (-800) ∧
    stored_float64 a = np_exp (-800) ∧
    stored_float64 M_n = F64_finite 0 ∧
    stored_float64 a = F64_finite 0 ∧
    ¬ float64_pos (stored_float64 M_n) ∧
    ¬ float64_pos (stored_float64 a).
Proof.
  assert (np_exp (-800) = F64_finite 0) as H0 by (apply np_exp_underflow; lra).
  exists (Bare (exp (-800))), (Qty (exp (-800)) pc).
  split; [reflexivity|].
  change (stored_float64 (Bare (exp (-800)))) with (np_exp (-800)).
  change (stored_float64 (Qty (exp (-800)) pc)) with (np_exp (-800)).
  rewrite H0. simpl. repeat split; try reflexivity; lra.
Qed.

(** * The further properties at the sample data *)

Lemma err_func_arity_sample :
  err_func (profiles:=sample_mass_profiles) 1 1 2 4 sample_state
  = (Raise TypeError, sample_state).
Proof.
  apply (err_func_arity (profiles:=sample_mass_profiles) sample_state
           1 1 2 4 [1; 2]); [reflexivity | discriminate].
Defined.

Lemma err_func_outcome_sample :
  match err_func_value (profiles:=sample_mass_profiles) x0 [1; 2] [10; 30]
          [2; 2] with
  | Ok res =>
      ∃ out s',
        err_func (profiles:=sample_mass_profiles) 5 1 2 4 sample_state
        = (Ok out, s') ∧
        heap sample_state !! out = None ∧
        heap s' !! out = Some (Array1 res)
  | Raise e =>
      ∃ s',
        err_func (profiles:=sample_mass_profiles) 5 1 2 4 sample_state
        = (Raise e, s')
  end.
Proof.
  apply (err_func_outcome (profiles:=sample_mass_profiles) sample_state
           5 1 2 4 x0 [1; 2] [10; 30] [2; 2]); reflexivity.
Defined.

Lemma err_func_shape_mismatch_sample :
  ∃ s',
    err_func (profiles:=sample_mass_profiles) 5 1 7 4 sample_state_shapes
    = (Raise ValueError, s') ∧
    extends sample_state_shapes s'.
Proof.
  apply (err_func_shape_mismatch (profiles:=sample_mass_profiles)
           sample_state_shapes 5 1 7 4 (ln 6e11) (ln 20) (ln 2e9) (ln 100)
           [1; 2] [10; 30; 50] [2; 2]); try reflexivity; [discriminate|].
  left. split; discriminate.
Defined.

Lemma err_func_single_uncertainty_sample :
  ∃ out s' res,
    err_func (profiles:=sample_mass_profiles) 5 1 2 6 sample_state_shapes
    = (Ok out, s') ∧
    heap s' !! out = Some (Array1 res) ∧
    length res = 2%nat ∧
    ∀ i r_i m_i,
      [1; 2] !! i = Some r_i → [10; 30] !! i = Some m_i →
      res !! i
      = Some ((composite_mass_enclosed (profiles:=sample_mass_profiles)
                 (get_potential (ln 6e11) (ln 20) (ln 2e9) (ln 100))
                 (r_i, 0, 0) - m_i) / 2).
Proof.
  apply (err_func_single_uncertainty (profiles:=sample_mass_profiles)
           sample_state_shapes 5 1 2 6 (ln 6e11) (ln 20) (ln 2e9) (ln 100) 2
           [1; 2] [10; 30]); reflexivity.
Defined.

Lemma err_func_residual_sign_sample :
  ∃ out s' res,
    err_func (profiles:=sample_mass_profiles) 5 1 2 4 sample_state
    = (Ok out, s') ∧
    heap s' !! out = Some (Array1 res) ∧
    ∀ i r_i m_i,
      [1; 2] !! i = Some r_i → [10; 30] !! i = Some m_i →
      let model_i :=
        composite_mass_enclosed (profiles:=sample_mass_profiles)
          (get_potential (ln 6e11) (ln 20) (ln 2e9) (ln 100)) (r_i, 0, 0) in
      ∃ res_i,
        res !! i = Some res_i ∧
        (m_i <= model_i → 0 <= res_i) ∧
        (model_i <= m_i → res_i <= 0).
Proof.
  apply (err_func_residual_sign (profiles:=sample_mass_profiles) sample_state
           5 1 2 4 (ln 6e11) (ln 20) (ln 2e9) (ln 100) [1; 2] [10; 30]
           [2; 2]); try reflexivity.
  repeat constructor; lra.
Defined.

Lemma err_func_single_radius_sample :
  ∃ out s' res,
    err_func (profiles:=sample_mass_profiles) 5 8 2 4 sample_state_shapes
    = (Ok out, s') ∧
    heap s' !! out = Some (Array1 res) ∧
    length res = 2%nat ∧
    ∀ i m_i e_i,
      [10; 30] !! i = Some m_i → [2; 2] !! i = Some e_i →
      res !! i
      = Some ((composite_mass_enclosed (profiles:=sample_mass_profiles)
                 (get_potential (ln 6e11) (ln 20) (ln 2e9) (ln 100))
                 (1, 0, 0) - m_i) / e_i).
Proof.
  apply (err_func_single_radius (profiles:=sample_mass_profiles)
           sample_state_shapes 5 8 2 4 (ln 6e11) (ln 20) (ln 2e9) (ln 100) 1
           [10; 30] [2; 2]); reflexivity.
Defined.

Lemma fit_cell_solver_raises_sample :
  (fit_cell (profiles:=sample_mass_profiles) (solver:=sample_leastsq_raises)
     sample_state).1 = Raise TypeError.
Proof.
  destruct (fit_cell_solver_raises (profiles:=sample_mass_profiles)
              (solver:=sample_leastsq_raises) sample_state sample_cols
              4 3 1 2 [2; 2] [1; 3] x0 eq_refl eq_refl eq_refl eq_refl
              eq_refl eq_refl eq_refl eq_refl eq_refl)
    as (call & l_err & _ & Hraise).
  apply (Hraise TypeError eq_refl).
Defined.

Lemma fit_cell_missing_column_sample :
  (fit_cell (profiles:=sample_mass_profiles) (solver:=sample_leastsq)
     sample_state_no_Menc).1 = Raise (KeyError "Menc").
Proof.
  destruct (fit_cell_missing_column (profiles:=sample_mass_profiles)
              (solver:=sample_leastsq) sample_state_no_Menc
              (delete "Menc" sample_cols) eq_refl)
    as (_ & _ & Hmissing).
  apply (Hmissing 4%positive 3%positive [2; 2] [1; 3] (VList x0) "Menc");
    try reflexivity.
  right. split; [reflexivity|]. split; [by eexists | reflexivity].
Defined.

Lemma fit_cell_residuals_zero_at_fit_sample :
  ∃ call,
    solver_calls
      (fit_cell (profiles:=sample_mass_profiles) (solver:=sample_leastsq)
         sample_state).2 = [call] ∧
    ∀ a b c d,
      model_masses (profiles:=sample_mass_profiles)
        (get_potential a b c d) [1; 2] = [10; 30] →
      call_func call [a; b; c; d] = Ok [0; 0].
Proof.
  apply (fit_cell_residuals_zero_at_fit (profiles:=sample_mass_profiles)
           (solver:=sample_leastsq) sample_state sample_cols 4 3 1 2
           [2; 2] [1; 3] x0 [1; 2] [10; 30]); try reflexivity.
  repeat constructor; lra.
Defined.

Lemma fit_cell_again_sample :
  let run1 :=
    fit_cell (profiles:=sample_mass_profiles) (solver:=sample_leastsq)
      sample_state in
  let run2 :=
    fit_cell (profiles:=sample_mass_profiles) (solver:=sample_leastsq)
      run1.2 in
  run2.1 = run1.1 ∧
  globals run2.2 !! "fit_potential" = globals run1.2 !! "fit_potential" ∧
  ∃ call1 call2,
    solver_calls run2.2 = [call1; call2] ∧
    call_x0 call1 = x0 ∧ call_x0 call2 = x0 ∧
    ∀ pv, call_func call2 pv = call_func call1 pv.
Proof.
  apply (fit_cell_again (profiles:=sample_mass_profiles)
           (solver:=sample_leastsq) sample_state sample_cols 4 3 1 2
           [2; 2] [1; 3] x0 [1; 2] [10; 30]); reflexivity.
Defined.

Lemma init_cell_then_fit_cell_sample :
  let s1 := (init_cell sample_state).2 in
  (init_cell sample_state).1 = Ok () ∧
  heap s1 = heap sample_state ∧
  ∃ a b c d,
    globals s1 !! "x0" = Some (VList [a; b; c; d]) ∧
    globals s1 !! "init_potential"
    = Some (VPotential (get_potential a b c d)) ∧
    ∃ call,
      solver_calls
        (fit_cell (profiles:=sample_mass_profiles) (solver:=sample_leastsq)
           s1).2 = [call] ∧
      call_x0 call = [a; b; c; d].
Proof.
  apply (init_cell_then_fit_cell (profiles:=sample_mass_profiles)
           (solver:=sample_leastsq) sample_state sample_cols 4 3 1 2
           [2; 2] [1; 3]); reflexivity.
Defined.
